(** * nipo: a shallow embedding of the event-to-log translation pipeline

    The development follows the layout of the repository:
    - [Levels]        pino's level table, [prepareLevelMap] and [lookupLevel]
                      (lib/index.js);
    - [Subscriptions] [onLevelChange], the dynamic (un)subscription of the
                      debug- and info-tier handlers (lib/index.js);
    - [Utils]         [safeJsonObject] (lib/utils.js), over an explicit heap;
    - [Serialize]     [errorName], [errorCause], [addCause], [errSerializer]
                      (lib/serialize.js);
    - [Translators]   [logResponseError], [onResponseHandler] and the
                      [safeHandler] wrapper (lib/index.js). *)

From Stdlib Require Import ZArith Lia.
From stdpp Require Import base decidable option list strings gmap pretty.

(** ** Levels *)

Module Levels.
Local Open Scope Z_scope.

(** pino's default level table ([Pino().levels]): [values] maps a label
    to its number, [labels] is the inverse table. *)
Inductive Level := trace | debug | info | warn | error | fatal.

Definition all_levels : list Level := [trace; debug; info; warn; error; fatal].

Definition level_name (l : Level) : string :=
  match l with
  | trace => "trace" | debug => "debug" | info => "info"
  | warn => "warn" | error => "error" | fatal => "fatal"
  end.

Definition level_value (l : Level) : Z :=
  match l with
  | trace => 10 | debug => 20 | info => 30
  | warn => 40 | error => 50 | fatal => 60
  end.

(** [pinoLevels.values[name]]; [None] is JavaScript's [undefined]. *)
Definition pinoValues (name : string) : option Z :=
  (λ p, level_value p.2) <$> list_find (λ l, level_name l = name) all_levels.

(** [pinoLevels.labels[n]]. *)
Definition pinoLabels (n : Z) : option string :=
  (λ p, level_name p.2) <$> list_find (λ l, level_value l = n) all_levels.

(** [internals.prepareLevelMap]: the map is seeded with every built-in
    label and overlaid with the (schema-validated) [tagLevels] option,
    whose values are level names of type [Level]. *)
Definition prepareLevelMap (tagLevels : list (string * Level)) : gmap string Z :=
  let map : gmap string Z :=
    list_to_map ((λ l, (level_name l, level_value l)) <$> all_levels) in
  fold_left (λ map kv, <[kv.1 := level_value kv.2]> map) tagLevels map.

(** One iteration of the loop of [internals.lookupLevel];
    [map.get(tag)] is [undefined] for a missing tag, and
    [undefined > level] is false. *)
Definition lookupStep (map : gmap string Z) (level : Z) (tag : string) : Z :=
  match map !! tag with
  | Some tagLevel => if bool_decide (tagLevel > level) then tagLevel else level
  | None => level
  end.

(** [internals.lookupLevel(tags, defaultLevel, map)]. *)
Definition lookupLevel (tags : list string) (defaultLevel : string)
    (map : gmap string Z) : option string :=
  let level := fold_left (lookupStep map) tags (-1) in
  if bool_decide (level = -1) then Some defaultLevel else pinoLabels level.

(** The mapped values of the tags of [T] that are keys of [M]. *)
Definition hits (T : list string) (M : gmap string Z) : list Z :=
  omap (λ t, M !! t) T.

(** A tag-to-level map: every value is the number of a pino level. *)
Definition level_map (M : gmap string Z) : Prop :=
  ∀ k v, M !! k = Some v → ∃ l, v = level_value l.

Lemma pinoLabels_value l : pinoLabels (level_value l) = Some (level_name l).
Proof. by destruct l. Qed.

Lemma pinoValues_name l : pinoValues (level_name l) = Some (level_value l).
Proof. by destruct l. Qed.

Lemma level_value_pos l : 0 < level_value l.
Proof. destruct l; simpl; lia. Qed.

Lemma seed_level_map :
  level_map (list_to_map ((λ l, (level_name l, level_value l)) <$> all_levels)).
Proof.
  intros k v Hkv. apply elem_of_list_to_map_2 in Hkv.
  apply list_elem_of_fmap in Hkv as (l & [= -> ->] & _). eauto.
Qed.

Lemma prepareLevelMap_level_map tagLevels : level_map (prepareLevelMap tagLevels).
Proof.
  unfold prepareLevelMap. generalize seed_level_map.
  generalize (list_to_map ((λ l, (level_name l, level_value l)) <$> all_levels)
                : gmap string Z).
  induction tagLevels as [|[k l] tl IH]; intros m Hm; simpl; [done|].
  apply IH. intros k' v. destruct (decide (k = k')) as [->|Hne].
  - rewrite lookup_insert_eq. intros [= <-]. eauto.
  - rewrite lookup_insert_ne by done. apply Hm.
Qed.

Lemma lookupStep_max M level tag :
  lookupStep M level tag = from_option (Z.max level) level (M !! tag).
Proof.
  unfold lookupStep. destruct (M !! tag) as [v|]; simpl; [|done].
  case_bool_decide; lia.
Qed.

Lemma fold_lookupStep_hits M T a :
  fold_left (lookupStep M) T a = fold_left Z.max (hits T M) a.
Proof.
  revert a. induction T as [|t T IH]; intros a; simpl; [done|].
  rewrite IH, lookupStep_max. unfold hits. simpl.
  destruct (M !! t); simpl; done.
Qed.

Lemma fold_max_ge hs a : a ≤ fold_left Z.max hs a.
Proof.
  revert a. induction hs as [|h hs IH]; intros a; simpl; [lia|].
  specialize (IH (Z.max a h)). lia.
Qed.

Lemma fold_max_upper hs a w : w ∈ hs → w ≤ fold_left Z.max hs a.
Proof.
  revert a. induction hs as [|h hs IH]; intros a Hw; simpl.
  - by apply elem_of_nil in Hw.
  - apply elem_of_cons in Hw as [->|Hw]; [|by apply IH].
    pose proof (fold_max_ge hs (Z.max a h)). lia.
Qed.

Lemma fold_max_elem hs a :
  fold_left Z.max hs a = a ∨ fold_left Z.max hs a ∈ hs.
Proof.
  revert a. induction hs as [|h hs IH]; intros a; simpl; [by left|].
  destruct (IH (Z.max a h)) as [Heq|Hin].
  - rewrite Heq. destruct (Z.max_spec a h) as [[_ ->]|[_ ->]].
    + right. apply elem_of_cons. by left.
    + by left.
  - right. apply elem_of_cons. by right.
Qed.

Lemma hits_level M T v : level_map M → v ∈ hits T M → ∃ l, v = level_value l.
Proof.
  intros HM Hv. unfold hits in Hv. apply list_elem_of_omap in Hv as (t & _ & Ht).
  eauto.
Qed.

Lemma hits_filter M T :
  hits (filter (λ t, is_Some (M !! t)) T) M = hits T M.
Proof.
  unfold hits. induction T as [|t T IH]; [done|].
  rewrite filter_cons. destruct (decide (is_Some (M !! t))) as [[v Hv]|Hn].
  - cbn. by rewrite Hv, IH.
  - cbn. rewrite IH. destruct (M !! t) as [v|] eqn:E; [|done].
    destruct Hn. eauto.
Qed.

(** C3. [lookupLevel(T, d, M)] never fails; it returns [d] when no tag of
    [T] is a key of the tag-to-level map [M] (so also for empty [T]),
    otherwise the label whose number is the maximum of the values mapped
    to the tags of [T] that are keys of [M]; tags that are not keys of [M]
    do not change the result. *)
Theorem lookupLevel_max (T : list string) (d : string) (M : gmap string Z) :
  level_map M →
  (hits T M = [] → lookupLevel T d M = Some d) ∧
  (hits T M ≠ [] →
     ∃ name v, lookupLevel T d M = Some name ∧ pinoValues name = Some v ∧
               v ∈ hits T M ∧ ∀ w, w ∈ hits T M → w ≤ v) ∧
  lookupLevel (filter (λ t, is_Some (M !! t)) T) d M = lookupLevel T d M.
Proof.
  intros HM. unfold lookupLevel. rewrite !fold_lookupStep_hits, hits_filter.
  split; [|split; [|done]].
  - by intros ->.
  - intros Hne. set (m := fold_left Z.max (hits T M) (-1)).
    assert (Hin : m ∈ hits T M).
    { destruct (fold_max_elem (hits T M) (-1)) as [Heq|Hin]; [|done].
      exfalso. destruct (hits T M) as [|h hs] eqn:E; [done|].
      assert (Hh : h ∈ hits T M) by (rewrite E; apply elem_of_cons; by left).
      destruct (hits_level M T h HM Hh) as [l ->].
      pose proof (level_value_pos l).
      rewrite E in Hh. pose proof (fold_max_upper _ (-1) _ Hh) as Hle. lia. }
    destruct (hits_level M T m HM Hin) as [l Hl].
    exists (level_name l), m. rewrite bool_decide_eq_false_2.
    + rewrite Hl, pinoLabels_value, pinoValues_name. repeat split; try done.
      * by rewrite <- Hl.
      * intros w Hw. rewrite <- Hl. by apply fold_max_upper.
    + pose proof (level_value_pos l). lia.
Qed.

Lemma lookupLevel_max_witness :
  let M := prepareLevelMap [("my", warn)] in
  level_map M ∧
  (hits ["my"; "app"] M = [] → lookupLevel ["my"; "app"] "info" M = Some "info") ∧
  (hits ["my"; "app"] M ≠ [] →
     ∃ name v, lookupLevel ["my"; "app"] "info" M = Some name ∧
               pinoValues name = Some v ∧
               v ∈ hits ["my"; "app"] M ∧ ∀ w, w ∈ hits ["my"; "app"] M → w ≤ v) ∧
  lookupLevel (filter (λ t, is_Some (M !! t)) ["my"; "app"]) "info" M
    = lookupLevel ["my"; "app"] "info" M.
Proof.
  split; [apply prepareLevelMap_level_map|].
  apply (lookupLevel_max ["my"; "app"] "info" (prepareLevelMap [("my", warn)])).
  apply prepareLevelMap_level_map.
Defined.

Example lookupLevel_scenario_E :
  lookupLevel ["my"; "app"] "info" (prepareLevelMap [("my", warn)]) = Some "warn".
Proof. by vm_compute. Qed.

Example lookupLevel_worst_wins :
  lookupLevel ["request"; "error"; "debug"] "info" (prepareLevelMap []) = Some "error".
Proof. by vm_compute. Qed.

(** *** More on the level map and on level resolution *)

(** The level that the option [tagLevels] gives to [key], if any; a later
    entry of the same key replaces an earlier one, as [map.set] does. *)
Fixpoint override (tagLevels : list (string * Level)) (key : string) : option Level :=
  match tagLevels with
  | [] => None
  | (k, l) :: tagLevels =>
      match override tagLevels key with
      | Some l' => Some l'
      | None => if decide (k = key) then Some l else None
      end
  end.

(** The number that the loop of [lookupLevel] ends with. *)
Definition resolve (tags : list string) (map : gmap string Z) : Z :=
  fold_left (lookupStep map) tags (-1).

Lemma seed_lookup key :
  (list_to_map ((λ l, (level_name l, level_value l)) <$> all_levels)
     : gmap string Z) !! key = pinoValues key.
Proof.
  destruct (decide (key ∈ level_name <$> all_levels)) as [Hin|Hout].
  - apply list_elem_of_fmap in Hin as (l & -> & _). by destruct l.
  - rewrite (not_elem_of_list_to_map_1 _ key)
      by (by rewrite <-list_fmap_compose).
    unfold pinoValues.
    destruct (list_find _ all_levels) as [[i l]|] eqn:Hfind; [|done].
    apply list_find_Some in Hfind as (Hl & <- & _).
    destruct Hout. apply list_elem_of_fmap. eexists; split; [done|].
    by eapply list_elem_of_lookup_2.
Qed.

Lemma fold_override tagLevels key : ∀ m : gmap string Z,
  fold_left (λ map kv, <[kv.1 := level_value kv.2]> map) tagLevels m !! key
  = match override tagLevels key with
    | Some l => Some (level_value l)
    | None => m !! key
    end.
Proof.
  induction tagLevels as [|[k l] tl IH]; intros m; [done|].
  cbn [fold_left override]. rewrite IH.
  destruct (override tl key) as [l'|]; [done|]. simpl.
  case_decide as Hk; [subst; by rewrite lookup_insert_eq|].
  by rewrite lookup_insert_ne.
Qed.

(** X1. A key of the prepared map has the number of the level that
    [tagLevels] gives it (the last entry of that key), and otherwise the
    number pino gives to a built-in label; any other key is absent. *)
Theorem prepareLevelMap_lookup (tagLevels : list (string * Level)) (key : string) :
  prepareLevelMap tagLevels !! key
  = match override tagLevels key with
    | Some l => Some (level_value l)
    | None => pinoValues key
    end.
Proof. unfold prepareLevelMap. by rewrite fold_override, seed_lookup. Qed.

Lemma fold_max_perm (hs hs' : list Z) : hs ≡ₚ hs' →
  ∀ a, fold_left Z.max hs a = fold_left Z.max hs' a.
Proof.
  induction 1 as [|x l l' _ IH|x y l|l l' l'' _ IH1 _ IH2]; intros a; simpl.
  - done.
  - apply IH.
  - f_equal. lia.
  - by rewrite IH1.
Qed.

(** X2. The order of the tags does not matter: two tag sequences that are
    permutations of one another resolve to the same level, for any map. *)
Theorem lookupLevel_order_irrelevant (T T' : list string) (d : string)
    (M : gmap string Z) :
  T ≡ₚ T' → lookupLevel T d M = lookupLevel T' d M.
Proof.
  intros HT. unfold lookupLevel. rewrite !fold_lookupStep_hits.
  assert (Hh : hits T M ≡ₚ hits T' M) by (unfold hits; by rewrite HT).
  by rewrite (fold_max_perm _ _ Hh).
Qed.

Lemma lookupLevel_order_irrelevant_witness :
  ["app"; "error"; "my"] ≡ₚ ["my"; "app"; "error"] ∧
  lookupLevel ["app"; "error"; "my"] "info" (prepareLevelMap [("my", warn)])
  = lookupLevel ["my"; "app"; "error"] "info" (prepareLevelMap [("my", warn)]).
Proof.
  assert (H : ["app"; "error"; "my"] ≡ₚ ["my"; "app"; "error"]).
  { change (["app"; "error"] ++ ["my"] ≡ₚ ["my"] ++ ["app"; "error"]).
    apply Permutation_app_comm. }
  split; [exact H|].
  exact (lookupLevel_order_irrelevant _ _ "info" _ H).
Defined.

Lemma fold_max_init hs a :
  fold_left Z.max hs a = Z.max a (fold_left Z.max hs (-1)) ∨ a < -1.
Proof.
  destruct (decide (a < -1)) as [?|Ha]; [by right|left].
  revert a Ha. induction hs as [|h hs IH]; intros a Ha; simpl; [lia|].
  destruct (decide (h < -1)) as [Hh|Hh].
  - rewrite (Z.max_l a h), (Z.max_l (-1) h) by lia. by apply IH.
  - rewrite (IH (Z.max a h)), (IH (Z.max (-1) h)) by lia. lia.
Qed.

(** X3. The most severe tag wins across a concatenation: the number
    resolved for [T1 ++ T2] is the greater of the numbers resolved for [T1]
    and for [T2], and [lookupLevel] depends on the tags through that number
    only; so adding tags never lowers the level. *)
Theorem resolve_app (T1 T2 : list string) (d : string) (M : gmap string Z) :
  resolve (T1 ++ T2) M = Z.max (resolve T1 M) (resolve T2 M) ∧
  resolve T1 M ≤ resolve (T1 ++ T2) M ∧
  lookupLevel (T1 ++ T2) d M
  = (if bool_decide (resolve (T1 ++ T2) M = -1) then Some d
     else pinoLabels (resolve (T1 ++ T2) M)).
Proof.
  assert (H : resolve (T1 ++ T2) M = Z.max (resolve T1 M) (resolve T2 M)).
  { unfold resolve. rewrite fold_left_app, !fold_lookupStep_hits.
    pose proof (fold_max_ge (hits T1 M) (-1)).
    destruct (fold_max_init (hits T2 M) (fold_left Z.max (hits T1 M) (-1)));
      [done|lia]. }
  split; [done|]. split; [lia|done].
Qed.


(** On a tag-to-level map the answer of [lookupLevel] is always a method of
    the logger: the default, or the label of a level. *)
Lemma lookupLevel_label (T : list string) (d : string) (M : gmap string Z) :
  level_map M →
  lookupLevel T d M = Some d ∨ ∃ l, lookupLevel T d M = Some (level_name l).
Proof.
  intros HM. unfold lookupLevel. rewrite fold_lookupStep_hits.
  case_bool_decide as Hm; [by left|right].
  destruct (fold_max_elem (hits T M) (-1)) as [Heq|Hin]; [done|].
  destruct (hits_level M T _ HM Hin) as [l ->]. exists l. apply pinoLabels_value.
Qed.

End Levels.

(** ** Dynamic subscriptions *)

Module Subscriptions.
Import Levels.
Local Open Scope Z_scope.

(** A logger threshold ([levelVal]): a number, or [Infinity] for the
    level "silent". *)
Inductive threshold := Finite (z : Z) | Infinity.

(** [refVal >= val] on JavaScript numbers. *)
Definition ge_threshold (refVal : Z) (val : threshold) : bool :=
  match val with
  | Finite v => bool_decide (refVal >= v)
  | Infinity => false
  end.

(** The handlers kept in [internals.handlers]; [otherHandler] stands for
    the listeners that [register] attaches once and for all. *)
Inductive Handler :=
  | requestInternal | logInternal | requestApp | logApp
  | otherHandler (n : nat).

Global Instance Handler_eq_dec : EqDecision Handler.
Proof. solve_decision. Defined.

(** An event criterion [{ name, channels }]; a bare event name has no
    [channels]. *)
Record criteria := Criteria { name : string; channels : option string }.

Global Instance criteria_eq_dec : EqDecision criteria.
Proof. solve_decision. Defined.

(** The listeners of [server.events], in subscription order. *)
Abbreviation events := (list (criteria * Handler)).

(** The two calls [onLevelChange] makes on [server.events]. *)
Inductive call :=
  | On (c : criteria) (h : Handler)
  | RemoveListener (event_name : string) (h : Handler).

(** [server.events.on] adds a listener; [removeListener(name, listener)]
    drops every subscription of that listener to the event of that name. *)
Definition apply_call (e : events) (c : call) : events :=
  match c with
  | On crit h => e ++ [(crit, h)]
  | RemoveListener n h =>
      filter (λ s, ¬ (name s.1 = n ∧ s.2 = h)) e
  end.

Section OnLevelChange.
(** [val] and [prevVal]; [None] is an [undefined] previous value. *)
Variable (val : threshold) (prevVal : option threshold).

(** The closure [levelChanged]; [None] is [undefined]. *)
Definition levelChanged (ref : Level) : option bool :=
  let refVal := level_value ref in
  let isActive := ge_threshold refVal val in
  let isPrevActive :=
    match prevVal with
    | None => false
    | Some prev => ge_threshold refVal prev
    end in
  if bool_decide (isActive = isPrevActive) then None else Some isActive.

(** The closure [update]: the calls made on [server.events]. *)
Definition update (ref : Level) (handlers : list (criteria * Handler)) : list call :=
  match levelChanged ref with
  | Some active =>
      (λ eh : criteria * Handler,
         if active then On eh.1 eh.2 else RemoveListener (name eh.1) eh.2)
      <$> handlers
  | None => []
  end.
End OnLevelChange.

Definition debug_tier : list (criteria * Handler) :=
  [ (Criteria "request" (Some "internal"), requestInternal);
    (Criteria "log" (Some "internal"), logInternal) ].

Definition info_tier : list (criteria * Handler) :=
  [ (Criteria "request" (Some "app"), requestApp);
    (Criteria "log" (Some "app"), logApp) ].

(** [internals.onLevelChange(server, lvl, val, prevLvl, prevVal)], as the
    sequence of calls on [server.events]. *)
Definition onLevelChange_calls (val : threshold) (prevVal : option threshold) : list call :=
  update val prevVal debug debug_tier ++ update val prevVal info info_tier.

Definition onLevelChange (e : events) (val : threshold) (prevVal : option threshold) : events :=
  fold_left apply_call (onLevelChange_calls val prevVal) e.

(** The life of the plugin: [register] calls [onLevelChange] once with the
    logger's threshold [v0] and no previous value; every later
    'level-change' event carries the new threshold and the prior one. *)
Fixpoint changes (e : events) (prev : threshold) (vs : list threshold) : events :=
  match vs with
  | [] => e
  | v :: vs => changes (onLevelChange e v (Some prev)) v vs
  end.

Definition run (e : events) (v0 : threshold) (vs : list threshold) : events :=
  changes (onLevelChange e v0 None) v0 vs.

(** The threshold in force after the run. *)
Definition latest (v0 : threshold) (vs : list threshold) : threshold :=
  default v0 (last vs).

(** How many times the subscription [s] is attached. *)
Definition count (s : criteria * Handler) (e : events) : nat :=
  length (filter (λ s', s' = s) e).

(** The handlers of [tier] are attached (once each) exactly when [b]. *)
Definition attached (tier : list (criteria * Handler)) (b : bool) (e : events) : Prop :=
  ∀ s, s ∈ tier → count s e = if b then 1%nat else 0%nat.

(** The activity of a tier under a threshold. *)
Definition active (ref : Level) (v : threshold) : bool :=
  ge_threshold (level_value ref) v.

Definition subscribed_iff_active (v : threshold) (e : events) : Prop :=
  attached debug_tier (active debug v) e ∧ attached info_tier (active info v) e.

Lemma count_on s c h e :
  count s (apply_call e (On c h))
  = (count s e + if decide ((c, h) = s) then 1 else 0)%nat.
Proof.
  unfold count. cbn [apply_call]. rewrite filter_app, length_app. f_equal.
  rewrite filter_cons, filter_nil. by destruct (decide ((c, h) = s)).
Qed.

Lemma count_remove s n h e :
  count s (apply_call e (RemoveListener n h))
  = if decide (name s.1 = n ∧ s.2 = h) then 0%nat else count s e.
Proof.
  unfold count. cbn [apply_call].
  destruct (decide (name s.1 = n ∧ s.2 = h)) as [Hm|Hm];
    induction e as [|s' e IH]; try done; rewrite !filter_cons.
  - destruct (decide (¬ (name s'.1 = n ∧ s'.2 = h))) as [Hk|Hd]; [|done].
    rewrite filter_cons, decide_False; [done|]. by intros ->.
  - destruct (decide (¬ (name s'.1 = n ∧ s'.2 = h))) as [Hk|Hd].
    + rewrite filter_cons. destruct (decide (s' = s)); simpl; by rewrite IH.
    + rewrite decide_False; [done|]. intros ->. by apply dec_stable in Hd.
Qed.

Lemma update_no_flip val prev ref handlers :
  active ref val = active ref prev → update val (Some prev) ref handlers = [].
Proof.
  unfold update, levelChanged, active. intros ->.
  by rewrite bool_decide_eq_true_2.
Qed.

Lemma update_initial_inactive val ref handlers :
  active ref val = false → update val None ref handlers = [].
Proof. unfold update, levelChanged, active. by intros ->. Qed.

Local Arguments apply_call : simpl never.

Ltac count_calls :=
  repeat (rewrite count_on || rewrite count_remove); simpl;
  repeat case_decide; simplify_eq; try done; try lia.

Lemma onLevelChange_step e prev v :
  subscribed_iff_active prev e →
  subscribed_iff_active v (onLevelChange e v (Some prev)).
Proof.
  unfold subscribed_iff_active, attached, onLevelChange, onLevelChange_calls,
    update, levelChanged, active.
  intros [Hd Hi].
  pose proof (Hd _ ltac:(apply list_elem_of_here)) as Hd1.
  pose proof (Hd _ ltac:(apply list_elem_of_further, list_elem_of_here)) as Hd2.
  pose proof (Hi _ ltac:(apply list_elem_of_here)) as Hi1.
  pose proof (Hi _ ltac:(apply list_elem_of_further, list_elem_of_here)) as Hi2.
  clear Hd Hi.
  destruct (ge_threshold (level_value debug) v),
           (ge_threshold (level_value debug) prev),
           (ge_threshold (level_value info) v),
           (ge_threshold (level_value info) prev); simpl in *;
  (split; intros s Hs; unfold debug_tier, info_tier in Hs;
   repeat (apply elem_of_cons in Hs as [->|Hs]); try (by apply elem_of_nil in Hs);
   count_calls).
Qed.

Lemma onLevelChange_initial e v :
  attached debug_tier false e → attached info_tier false e →
  subscribed_iff_active v (onLevelChange e v None).
Proof.
  unfold subscribed_iff_active, attached, onLevelChange, onLevelChange_calls,
    update, levelChanged, active.
  intros Hd Hi.
  pose proof (Hd _ ltac:(apply list_elem_of_here)) as Hd1.
  pose proof (Hd _ ltac:(apply list_elem_of_further, list_elem_of_here)) as Hd2.
  pose proof (Hi _ ltac:(apply list_elem_of_here)) as Hi1.
  pose proof (Hi _ ltac:(apply list_elem_of_further, list_elem_of_here)) as Hi2.
  clear Hd Hi.
  destruct (ge_threshold (level_value debug) v),
           (ge_threshold (level_value info) v); simpl in *;
  (split; intros s Hs; unfold debug_tier, info_tier in Hs;
   repeat (apply elem_of_cons in Hs as [->|Hs]); try (by apply elem_of_nil in Hs);
   count_calls).
Qed.

Lemma changes_invariant vs : ∀ e prev,
  subscribed_iff_active prev e →
  subscribed_iff_active (latest prev vs) (changes e prev vs).
Proof.
  induction vs as [|v vs IH]; intros e prev Hinv; simpl; [done|].
  replace (latest prev (v :: vs)) with (latest v vs).
  - apply IH. by apply onLevelChange_step.
  - unfold latest. rewrite last_cons. by destruct (last vs).
Qed.

(** C9. Starting with none of the tier handlers attached, after the
    initial call of [onLevelChange] (previous threshold undefined) and any
    sequence of later calls that each pass the prior threshold as previous
    value, the handlers of the debug tier and of the info tier are attached
    (once each) if and only if the number of the tier's reference level is
    [>=] the latest threshold; and a call for which a tier's activity does
    not flip makes no call on [server.events] for that tier. *)
Theorem onLevelChange_invariant (e0 : events) (v0 : threshold) (vs : list threshold) :
  attached debug_tier false e0 → attached info_tier false e0 →
  subscribed_iff_active (latest v0 vs) (run e0 v0 vs) ∧
  (∀ ref handlers val prev,
     active ref val = active ref prev → update val (Some prev) ref handlers = []).
Proof.
  intros Hd Hi. split.
  - unfold run. apply changes_invariant. by apply onLevelChange_initial.
  - intros. by apply update_no_flip.
Qed.

Lemma onLevelChange_invariant_witness :
  let e0 := [(Criteria "response" None, otherHandler 0)] in
  let vs := [Finite 50; Infinity; Finite 20; Finite 30] in
  attached debug_tier false e0 ∧ attached info_tier false e0 ∧
  subscribed_iff_active (latest (Finite 30) vs) (run e0 (Finite 30) vs).
Proof.
  assert (H : ∀ tier, (otherHandler 0) ∉ tier.*2 →
     attached tier false [(Criteria "response" None, otherHandler 0)]).
  { intros tier Hn s Hs. unfold count. rewrite filter_cons, filter_nil.
    rewrite decide_False; [done|]. intros <-. apply Hn.
    by apply (list_elem_of_fmap_2 snd) in Hs. }
  assert (Hd : attached debug_tier false [(Criteria "response" None, otherHandler 0)]).
  { apply H. simpl. rewrite !not_elem_of_cons. repeat split; try done.
    apply not_elem_of_nil. }
  assert (Hi : attached info_tier false [(Criteria "response" None, otherHandler 0)]).
  { apply H. simpl. rewrite !not_elem_of_cons. repeat split; try done.
    apply not_elem_of_nil. }
  split; [exact Hd|]. split; [exact Hi|].
  exact (proj1 (onLevelChange_invariant _ (Finite 30)
                  [Finite 50; Infinity; Finite 20; Finite 30] Hd Hi)).
Defined.

Example level_changes_test :
  run [] (Finite 20) [Finite 50; Finite 30]
  = [ (Criteria "request" (Some "app"), requestApp);
      (Criteria "log" (Some "app"), logApp) ].
Proof. reflexivity. Qed.

(** *** What a level change leaves alone *)

(** The handler is one of the four that [onLevelChange] manages. *)
Definition managed (h : Handler) : bool :=
  match h with
  | otherHandler _ => false
  | _ => true
  end.

(** The listeners of [server.events] that [onLevelChange] does not manage
    (the 'response', 'start', 'stop' and error-channel listeners, and those
    of other plugins), in subscription order. *)
Definition unmanaged (e : events) : events :=
  filter (λ s, managed s.2 = false) e.

Definition call_handler (c : call) : Handler :=
  match c with
  | On _ h => h
  | RemoveListener _ h => h
  end.

Lemma apply_call_unmanaged e c :
  managed (call_handler c) = true → unmanaged (apply_call e c) = unmanaged e.
Proof.
  unfold unmanaged. destruct c as [crit h|n h]; unfold apply_call, call_handler; intros Hh.
  - rewrite filter_app, filter_cons, filter_nil.
    rewrite decide_False by (simpl; congruence). apply app_nil_r.
  - induction e as [|s e IH]; [done|]. rewrite !filter_cons.
    destruct (decide (managed s.2 = false)) as [Hs|Hs].
    + rewrite decide_True by (intros [_ Heq]; congruence).
      rewrite filter_cons, decide_True by done. by rewrite IH.
    + case_decide; [|done]. by rewrite filter_cons, decide_False.
Qed.

Lemma onLevelChange_calls_managed val prevVal :
  Forall (λ c, managed (call_handler c) = true) (onLevelChange_calls val prevVal).
Proof.
  unfold onLevelChange_calls, update.
  apply Forall_app; split;
    (destruct (levelChanged _ _ _) as [[]|]; [| |constructor];
     repeat constructor).
Qed.

Lemma onLevelChange_unmanaged e val prevVal :
  unmanaged (onLevelChange e val prevVal) = unmanaged e.
Proof.
  unfold onLevelChange. revert e.
  induction (onLevelChange_calls_managed val prevVal) as [|c cs Hc _ IH];
    intros e; simpl; [done|].
  by rewrite IH, apply_call_unmanaged.
Qed.

(** X4. Level changes leave every other listener alone: whatever the
    listeners at registration and whatever the thresholds, the listeners
    whose handler is not one of the four managed ones are the same, in the
    same order, after the initial call and any sequence of level changes. *)
Theorem onLevelChange_frame (e0 : events) (v0 : threshold) (vs : list threshold) :
  unmanaged (run e0 v0 vs) = unmanaged e0.
Proof.
  unfold run. rewrite <-(onLevelChange_unmanaged e0 v0 None).
  generalize (onLevelChange e0 v0 None) as e. generalize v0 as prev.
  induction vs as [|v vs IH]; intros prev e; simpl; [done|].
  by rewrite IH, onLevelChange_unmanaged.
Qed.

Lemma update_cases val prevVal ref tier :
  update val prevVal ref tier
  = if bool_decide (active ref val = from_option (active ref) false prevVal)
    then []
    else if active ref val then (λ eh, On eh.1 eh.2) <$> tier
    else (λ eh, RemoveListener (name eh.1) eh.2) <$> tier.
Proof.
  unfold update, levelChanged, active.
  destruct prevVal as [prev|]; simpl;
    by destruct (ge_threshold (level_value ref) val), (bool_decide _).
Qed.

(** [a <= b] on thresholds. *)
Definition threshold_le (a b : threshold) : Prop :=
  match a, b with
  | _, Infinity => True
  | Infinity, Finite _ => False
  | Finite x, Finite y => x ≤ y
  end.

Definition is_on (c : call) : Prop :=
  match c with On _ _ => True | RemoveListener _ _ => False end.

Lemma active_mono ref a b :
  threshold_le a b → active ref b = true → active ref a = true.
Proof.
  unfold active. destruct a as [x|], b as [y|]; simpl; try done.
  intros Hle Hb. apply bool_decide_eq_true in Hb. apply bool_decide_eq_true. lia.
Qed.

Lemma update_direction val prevVal ref tier (b : bool) :
  (∀ a a', active ref val = a → from_option (active ref) false prevVal = a' →
           a ≠ a' → a = b) →
  Forall (λ c, is_on c ↔ b = true) (update val prevVal ref tier).
Proof.
  intros Hb. rewrite update_cases. case_bool_decide as Hflip; [constructor|].
  specialize (Hb _ _ eq_refl eq_refl Hflip).
  destruct (active ref val); subst b; apply Forall_fmap, Forall_forall;
    intros eh _; simpl; split; done.
Qed.

(** X5. The direction of a level change decides the kind of call: when the
    threshold is lowered (or there is no previous threshold, as in the call
    made by [register]) every call on [server.events] is an [on]; when the
    threshold is raised every call is a [removeListener]. *)
Theorem onLevelChange_direction (val prev : threshold) :
  (threshold_le val prev →
   Forall is_on (onLevelChange_calls val (Some prev))) ∧
  (threshold_le prev val →
   Forall (λ c, ¬ is_on c) (onLevelChange_calls val (Some prev))) ∧
  Forall is_on (onLevelChange_calls val None).
Proof.
  unfold onLevelChange_calls. split; [|split].
  - intros Hle. apply Forall_app; split;
      (eapply Forall_impl; [apply (update_direction _ _ _ _ true)|];
       [|by intros c ->]; simpl; intros a a' Ha Ha' Hne;
       destruct a; [done|]; destruct a'; [|done];
       by rewrite (active_mono _ _ _ Hle Ha') in Ha).
  - intros Hle. apply Forall_app; split;
      (eapply Forall_impl; [apply (update_direction _ _ _ _ false)|];
       [|by intros c ->]; simpl; intros a a' Ha Ha' Hne;
       destruct a; [|done]; destruct a'; [done|];
       by rewrite (active_mono _ _ _ Hle Ha) in Ha').
  - apply Forall_app; split;
      (eapply Forall_impl; [apply (update_direction _ _ _ _ true)|];
       [|by intros c ->]; simpl; intros a a' Ha Ha' Hne;
       destruct a; [done|]; by subst a').
Qed.

End Subscriptions.

(** ** Utils: [safeJsonObject] *)

Module Utils.

(** Arrays and objects live in a heap and are compared by reference. *)
Abbreviation loc := nat.

(** JavaScript values.  [VNum] is a number other than [NaN] (which is kept
    apart because [NaN !== NaN]); [VAtom] is a symbol or a function,
    compared by identity; [VRef] points to an array or object. *)
Inductive val :=
  | VUndefined
  | VNull
  | VBool (b : bool)
  | VNum (n : Z)
  | VNaN
  | VStr (s : string)
  | VBigInt (n : Z)
  | VAtom (id : nat)
  | VRef (l : loc).

Global Instance val_eq_dec : EqDecision val.
Proof. solve_decision. Defined.

(** The own enumerable properties of a composite: the elements of an array,
    or the entries of an object in key order (keys are distinct). *)
Inductive body :=
  | Arr (xs : list val)
  | Obj (ps : list (string * val)).

(** A heap cell.  [toJSON] is the object's [toJSON] method when it has one
    (inherited or not enumerable, so that it is not among the keys); it is
    called with the parent key and is modelled as a pure method: it reads
    but neither allocates nor writes. *)
Record cell := Cell { toJSON : option (string → val); body_of : body }.

Record state := State { heap : list cell; stack : list val }.

(** The result of a call: a value, the [TypeError] of [Object.keys(null)],
    or one of the two ways the model can fail to follow the code: no fuel
    left, or a reference that points outside the heap. *)
Inductive outcome (A : Type) :=
  | Ok (a : A) (st : state)
  | Throw (st : state)
  | OutOfFuel
  | Dangling.
Arguments Ok {A} _ _.
Arguments Throw {A} _.
Arguments OutOfFuel {A}.
Arguments Dangling {A}.

(** A property key: an array index or a name. *)
Inductive key := KIdx (i : nat) | KName (s : string).

Global Instance key_eq_dec : EqDecision key.
Proof. solve_decision. Defined.

(** [i.toString()] for an index, the key itself for a name. *)
Definition key_string (k : key) : string :=
  match k with KIdx i => pretty i | KName s => s end.

(** [o[key]] on an object; a missing property reads [undefined]. *)
Fixpoint object_get (ps : list (string * val)) (s : string) : val :=
  match ps with
  | [] => VUndefined
  | (s', v) :: ps => if decide (s' = s) then v else object_get ps s
  end.

(** [orig[i]] and [orig[key]]. *)
Definition get (b : body) (k : key) : val :=
  match b, k with
  | Arr xs, KIdx i => default VUndefined (xs !! i)
  | Obj ps, KName s => object_get ps s
  | _, _ => VUndefined
  end.

(** [a[i] = v] on an array: in range it replaces the element, beyond the
    end the array is extended (holes read [undefined]). *)
Definition array_set (xs : list val) (i : nat) (v : val) : list val :=
  if decide (i < length xs)%nat then <[i := v]> xs
  else xs ++ replicate (i - length xs) VUndefined ++ [v].

(** [o[key] = v] on an object: an existing key keeps its place. *)
Fixpoint object_set (ps : list (string * val)) (s : string) (v : val) : list (string * val) :=
  match ps with
  | [] => [(s, v)]
  | (s', v') :: ps => if decide (s' = s) then (s, v) :: ps else (s', v') :: object_set ps s v
  end.

(** [obj[i] = v] and [obj[key] = v]. *)
Definition set (b : body) (k : key) (v : val) : body :=
  match b, k with
  | Arr xs, KIdx i => Arr (array_set xs i v)
  | Obj ps, KName s => Obj (object_set ps s v)
  | _, _ => b
  end.

(** The keys visited by the loops: [0 .. orig.length - 1] for an array,
    [Object.keys(orig)] for an object.  (The source reads [orig.length]
    before each iteration; the writes of the loop are index writes in
    range on [obj], and [safeJsonObject_preserves] below shows that [orig]
    is never written, so the bound is the length read on entry.) *)
Definition keys (b : body) : list key :=
  match b with
  | Arr xs => KIdx <$> seq 0 (length xs)
  | Obj ps => KName <$> ps.*1
  end.

(** [obj.slice()] and [Object.assign(Object.create(null), orig)]: a new
    cell with the same own properties; the copy has the plain array
    prototype, or no prototype at all, hence no [toJSON]. *)
Definition copy (c : cell) : cell := Cell None (body_of c).

Definition alloc (c : cell) (st : state) : loc * state :=
  (length (heap st), State (heap st ++ [c]) (stack st)).

(** The write [obj[k] = v] in the heap. *)
Definition store (obj : loc) (k : key) (v : val) (st : state) : state :=
  State (alter (λ c, Cell (toJSON c) (set (body_of c) k v)) obj (heap st)) (stack st).

(** [value !== jsonValue] is the negation of this. *)
Definition strict_eq (a b : val) : bool :=
  match a, b with
  | VNaN, _ | _, VNaN => false
  | _, _ => bool_decide (a = b)
  end.

(** [stack.includes(x)] (SameValueZero: [NaN] is found), [stack.push(x)],
    [stack.pop()]. *)
Definition includes (x : val) (st : state) : bool := bool_decide (x ∈ stack st).
Definition push (x : val) (st : state) : state := State (heap st) (stack st ++ [x]).
Definition pop (st : state) : state := State (heap st) (removelast (stack st)).

(** The value of [obj] after the [toJSON] step. *)
Definition after_toJSON (h : list cell) (obj : val) (parentKey : string) : val :=
  match obj with
  | VRef l =>
      match h !! l with
      | Some (Cell (Some f) _) => f parentKey
      | _ => obj
      end
  | _ => obj
  end.

(** The two loops over the properties of [orig].  [rec] is the recursive
    call; [obj] is the variable of that name: [orig] itself until the first
    replacement, the copy afterwards. *)
Fixpoint loop (rec : val → string → state → outcome val)
    (orig : loc) (ks : list key) (obj : loc) (st : state) : outcome loc :=
  match ks with
  | [] => Ok obj st
  | k :: ks =>
      match heap st !! orig with
      | None => Dangling
      | Some c =>
          let value := get (body_of c) k in
          match rec value (key_string k) st with
          | Ok jsonValue st =>
              if strict_eq value jsonValue then loop rec orig ks obj st
              else if decide (obj = orig) then
                match heap st !! obj with
                | None => Dangling
                | Some co =>
                    let '(obj, st) := alloc (copy co) st in
                    loop rec orig ks obj (store obj k jsonValue st)
                end
              else loop rec orig ks obj (store obj k jsonValue st)
          | Throw st => Throw st
          | OutOfFuel => OutOfFuel
          | Dangling => Dangling
          end
      end
  end.

(** [exports.safeJsonObject(obj, parentKey, stack)]; the heap and the
    shared [stack] array are threaded through the state. *)
Fixpoint safeJsonObject (fuel : nat) (obj : val) (parentKey : string)
    (st : state) : outcome val :=
  match fuel with
  | O => OutOfFuel
  | S fuel =>
      match obj with
      | VUndefined | VNull => Ok obj st
      | _ =>
          let origObj := obj in
          let obj := after_toJSON (heap st) obj parentKey in
          match obj with
          | VRef orig =>
              if includes origObj st then Ok (VStr "[Circular]") st
              else
                let st := push origObj st in
                match heap st !! orig with
                | None => Dangling
                | Some c =>
                    match loop (safeJsonObject fuel) orig (keys (body_of c)) orig st with
                    | Ok obj st => Ok (VRef obj) (pop st)
                    | Throw st => Throw st
                    | OutOfFuel => OutOfFuel
                    | Dangling => Dangling
                    end
                end
          | VNull =>
              if includes origObj st then Ok (VStr "[Circular]") st
              else Throw (push origObj st)
          | VBigInt n => Ok (VStr (pretty n +:+ "n")) st
          | _ => Ok obj st
          end
      end
  end.

(** A call with the default arguments [parentKey = ''] and [stack = []]. *)
Definition sanitize (fuel : nat) (h : list cell) (x : val) : outcome val :=
  safeJsonObject fuel x "" (State h []).

(** *** The frame of a call: what it leaves alone *)

(** What a call must leave alone: the cells of the heap it started from
    (it may only add cells), and the stack once it has returned. *)
Definition frame {A} (st : state) (r : outcome A) : Prop :=
  match r with
  | Ok _ st' => heap st `prefix_of` heap st' ∧ stack st' = stack st
  | Throw st' => heap st `prefix_of` heap st'
  | _ => True
  end.

Lemma prefix_alter_fresh (f : cell → cell) (hb h : list cell) (l : loc) :
  hb `prefix_of` h → length hb ≤ l → hb `prefix_of` alter f l h.
Proof.
  intros [k ->] Hl. exists (alter f (l - length hb) k).
  by rewrite alter_app_r_alt by done.
Qed.

Lemma prefix_snoc (hb h : list cell) (c : cell) :
  hb `prefix_of` h → hb `prefix_of` h ++ [c].
Proof. apply prefix_app_r. Qed.

Lemma loop_frame rec orig hb :
  (∀ v k st, frame st (rec v k st)) →
  ∀ ks obj st,
    hb `prefix_of` heap st → obj = orig ∨ length hb ≤ obj →
    match loop rec orig ks obj st with
    | Ok obj' st' =>
        hb `prefix_of` heap st' ∧ stack st' = stack st ∧
        (obj' = orig ∨ length hb ≤ obj')
    | Throw st' => hb `prefix_of` heap st'
    | _ => True
    end.
Proof.
  intros Hrec. induction ks as [|k ks IH]; intros obj st Hb Hobj; simpl; [auto|].
  destruct (heap st !! orig) as [c|]; [|exact I].
  pose proof (Hrec (get (body_of c) k) (key_string k) st) as Hf.
  destruct (rec (get (body_of c) k) (key_string k) st) as [j st1|st1| |];
    simpl in Hf; try exact I.
  - destruct Hf as [Hpre Hstk]. assert (Hb1 : hb `prefix_of` heap st1) by by etrans.
    destruct (strict_eq _ j).
    { specialize (IH obj st1 Hb1 Hobj). rewrite <- Hstk. exact IH. }
    assert (Hlen : length hb ≤ length (heap st1)) by by apply prefix_length.
    destruct (decide (obj = orig)) as [->|Hne].
    + destruct (heap st1 !! orig) as [co|]; [|exact I]. simpl.
      match goal with |- context [loop _ _ _ _ ?s] => set (st2 := s) end.
      assert (Hb2 : hb `prefix_of` heap st2).
      { apply prefix_alter_fresh; [|done]. by apply prefix_snoc. }
      specialize (IH (length (heap st1)) st2 Hb2 (or_intror Hlen)).
      by rewrite <- Hstk.
    + destruct Hobj as [?|Hobj]; [done|].
      match goal with |- context [loop _ _ _ _ ?s] => set (st2 := s) end.
      assert (Hb2 : hb `prefix_of` heap st2) by by apply prefix_alter_fresh.
      specialize (IH obj st2 Hb2 (or_intror Hobj)).
      by rewrite <- Hstk.
  - by etrans.
Qed.

Lemma safeJsonObject_frame fuel : ∀ obj parentKey st,
  frame st (safeJsonObject fuel obj parentKey st).
Proof.
  induction fuel as [|fuel IH]; intros obj parentKey st; [done|].
  assert (Hscalar : ∀ v : val, frame st (Ok v st)) by done.
  assert (Hobj : ∀ orig,
    frame st (if includes obj st then Ok (VStr "[Circular]") st
              else match heap (push obj st) !! orig with
                   | None => Dangling
                   | Some c =>
                       match loop (safeJsonObject fuel) orig (keys (body_of c))
                               orig (push obj st) with
                       | Ok obj st => Ok (VRef obj) (pop st)
                       | Throw st => Throw st
                       | OutOfFuel => OutOfFuel
                       | Dangling => Dangling
                       end
                   end)).
  { intros orig. destruct (includes obj st); [done|].
    destruct (heap (push obj st) !! orig) as [c|]; [|done].
    pose proof (loop_frame (safeJsonObject fuel) orig (heap st) IH
                  (keys (body_of c)) orig (push obj st)
                  ltac:(done) ltac:(by left)) as Hl.
    destruct (loop _ _ _ _ _) as [o st'|st'| |]; try done.
    destruct Hl as (Hpre & Hstk & _). split; [done|].
    simpl. rewrite Hstk. simpl. apply removelast_last. }
  assert (Hnull :
    frame st (if includes obj st then Ok (VStr "[Circular]") st
              else Throw (push obj st) : outcome val)).
  { destruct (includes obj st); simpl; done. }
  simpl. destruct obj; try done;
    match goal with
    | |- context [after_toJSON ?h ?o ?k] => destruct (after_toJSON h o k)
    end; auto.
Qed.

(** The shape of a result: the marker when the object is on the stack,
    otherwise the (post-[toJSON]) object itself or a cell allocated by the
    call; a rendered bigint; any other value as it is. *)
Lemma safeJsonObject_result fuel obj parentKey st r st' :
  safeJsonObject fuel obj parentKey st = Ok r st' →
  match after_toJSON (heap st) obj parentKey with
  | VRef orig =>
      if includes obj st then r = VStr "[Circular]"
      else r = VRef orig ∨ ∃ l, r = VRef l ∧ length (heap st) ≤ l
  | VNull => obj = VNull ∧ r = VNull ∨ includes obj st = true ∧ r = VStr "[Circular]"
  | VBigInt n => r = VStr (pretty n +:+ "n")
  | o => r = o
  end.
Proof.
  destruct fuel as [|fuel]; [done|].
  destruct obj as [| |b|n| |s|n|a|l]; simpl;
    try (intros [= <- <-]; auto; fail).
  destruct (after_toJSON (heap st) (VRef l) parentKey)
    as [| |b|n| |s|n|a|orig] eqn:Ho; simpl in Ho; rewrite Ho;
    try (intros [= <- <-]; auto; fail).
  - destruct (includes (VRef l) st); [|done]. intros [= <- <-]. auto.
  - destruct (includes (VRef l) st); [by intros [= <- <-]|].
    destruct (heap st !! orig) as [c|]; [|done].
    pose proof (loop_frame (safeJsonObject fuel) orig (heap st)
                  (safeJsonObject_frame fuel) (keys (body_of c)) orig
                  (push (VRef l) st) ltac:(done) ltac:(by left)) as Hl.
    destruct (loop _ _ _ _ _) as [o st1|st1| |]; try done.
    destruct Hl as (_ & _ & [->|Hl]); intros [= <- <-]; eauto.
Qed.

(** *** Termination *)

(** The heap is closed: every reference held by a cell, or returned by a
    [toJSON] method, points into the heap. *)
Definition val_ok (h : list cell) (v : val) : Prop :=
  match v with VRef l => l < length h | _ => True end.

Definition body_vals (b : body) : list val :=
  match b with Arr xs => xs | Obj ps => ps.*2 end.

Definition wf (h : list cell) : Prop :=
  ∀ l c, h !! l = Some c →
    Forall (val_ok h) (body_vals (body_of c)) ∧
    ∀ f k, toJSON c = Some f → val_ok h (f k).

(** The call returned: it neither ran out of fuel nor left the heap. *)
Definition returns {A} (r : outcome A) : Prop :=
  match r with Ok _ _ | Throw _ => True | _ => False end.

Lemma object_get_ok h ps s :
  Forall (val_ok h) ps.*2 → val_ok h (object_get ps s).
Proof.
  induction ps as [|[s' v] ps IH]; simpl; [done|].
  intros [Hv Hps]%Forall_cons. by case_decide; auto.
Qed.

Lemma get_ok h b k : Forall (val_ok h) (body_vals b) → val_ok h (get b k).
Proof.
  destruct b as [xs|ps], k as [i|s]; simpl; try done.
  - intros Hxs. destruct (xs !! i) as [v|] eqn:E; simpl; [|done].
    eapply Forall_lookup_1; eauto.
  - apply object_get_ok.
Qed.

(** The stack holds distinct objects of the heap [h0]. *)
Definition stack_ok (h0 : list cell) (s : list val) : Prop :=
  NoDup s ∧ ∀ x, x ∈ s → ∃ l, x = VRef l ∧ l < length h0.

Lemma stack_ok_length h0 s : stack_ok h0 s → length s ≤ length h0.
Proof.
  intros [Hnd Hin].
  assert (Hsub : s ⊆+ VRef <$> seq 0 (length h0)).
  { apply NoDup_submseteq; [done|]. intros x [l [-> Hl]]%Hin.
    apply list_elem_of_fmap. exists l. split; [done|].
    apply elem_of_seq. lia. }
  apply submseteq_length in Hsub. by rewrite length_fmap, length_seq in Hsub.
Qed.

Lemma stack_ok_push h0 s l :
  stack_ok h0 s → VRef l ∉ s → l < length h0 → stack_ok h0 (s ++ [VRef l]).
Proof.
  intros [Hnd Hin] Hl Hlt. split.
  - apply NoDup_app. split; [done|]. split; [|apply NoDup_singleton].
    intros x Hx ->%list_elem_of_singleton. done.
  - intros x [Hx| ->%list_elem_of_singleton]%elem_of_app; eauto.
Qed.

Lemma loop_returns rec orig h0 S' :
  wf h0 → orig < length h0 →
  (∀ v k st, frame st (rec v k st)) →
  (∀ v k st, val_ok h0 v → h0 `prefix_of` heap st → stack st = S' →
             returns (rec v k st)) →
  ∀ ks obj st, h0 `prefix_of` heap st → stack st = S' →
    obj = orig ∨ length h0 ≤ obj →
    returns (loop rec orig ks obj st).
Proof.
  intros Hwf Horig Hfr Hret.
  induction ks as [|k ks IH]; intros obj st Hpre Hstk Hobj; simpl; [done|].
  destruct (lookup_lt_is_Some_2 h0 orig Horig) as [c Hc].
  pose proof (prefix_lookup_Some _ _ _ _ Hc Hpre) as Hc'. rewrite Hc'.
  destruct (Hwf _ _ Hc) as [Hvals _].
  pose proof (Hret _ (key_string k) st (get_ok h0 _ k Hvals) Hpre Hstk) as Hr.
  pose proof (Hfr (get (body_of c) k) (key_string k) st) as Hf.
  destruct (rec _ _ st) as [j st1|st1| |]; simpl in *; try done.
  destruct Hf as [Hpre1 Hstk1].
  assert (Hb1 : h0 `prefix_of` heap st1) by by etrans.
  assert (Hlen : length h0 ≤ length (heap st1)) by by apply prefix_length.
  destruct (strict_eq _ j); [apply IH; congruence|].
  destruct (decide (obj = orig)) as [->|Hne].
  - rewrite (prefix_lookup_Some _ _ _ _ Hc Hb1). simpl.
    apply IH; simpl; [|congruence|by right].
    apply prefix_alter_fresh; [|done]. by apply prefix_snoc.
  - destruct Hobj as [?|Hobj]; [done|].
    apply IH; simpl; [|congruence|by right].
    by apply prefix_alter_fresh.
Qed.

Lemma safeJsonObject_returns h0 fuel :
  wf h0 →
  ∀ obj parentKey st,
    val_ok h0 obj → h0 `prefix_of` heap st → stack_ok h0 (stack st) →
    length h0 < fuel + length (stack st) →
    returns (safeJsonObject fuel obj parentKey st).
Proof.
  intros Hwf. induction fuel as [|fuel IH]; intros obj parentKey st Hobj Hpre Hstk Hfuel.
  { apply stack_ok_length in Hstk. lia. }
  destruct obj as [| |b|n| |s|n|a|l]; simpl; try done.
  simpl in Hobj.
  destruct (lookup_lt_is_Some_2 h0 l Hobj) as [c Hc].
  pose proof (prefix_lookup_Some _ _ _ _ Hc Hpre) as Hc'. rewrite Hc'.
  destruct (Hwf _ _ Hc) as [_ Hto].
  assert (Hgoal : ∀ o, val_ok h0 o → returns
    match o with
    | VNull =>
        if includes (VRef l) st then Ok (VStr "[Circular]") st
        else Throw (push (VRef l) st)
    | VBigInt n => Ok (VStr (pretty n +:+ "n")) st
    | VRef orig =>
        if includes (VRef l) st then Ok (VStr "[Circular]") st
        else
          match heap (push (VRef l) st) !! orig with
          | Some c0 =>
              match loop (safeJsonObject fuel) orig (keys (body_of c0)) orig
                      (push (VRef l) st) with
              | Ok obj0 st1 => Ok (VRef obj0) (pop st1)
              | Throw st1 => Throw st1
              | OutOfFuel => OutOfFuel
              | Dangling => Dangling
              end
          | None => Dangling
          end
    | _ => Ok o st
    end).
  { intros o Ho. destruct o as [| |b|n| |s|n|a|orig]; try done.
    - by destruct (includes (VRef l) st).
    - unfold includes. case_bool_decide as Hin; [done|]. simpl in Ho.
      destruct (lookup_lt_is_Some_2 h0 orig Ho) as [co Hco].
      simpl. rewrite (prefix_lookup_Some _ _ _ _ Hco Hpre).
      assert (Hstk' : stack_ok h0 (stack st ++ [VRef l])) by by apply stack_ok_push.
      pose proof (loop_returns (safeJsonObject fuel) orig h0 (stack st ++ [VRef l])
                    Hwf Ho (safeJsonObject_frame fuel)) as Hl.
      specialize (Hl (λ v k st1 Hv Hp Hs, IH v k st1 Hv Hp
                        ltac:(by rewrite Hs)
                        ltac:(rewrite Hs, length_app; simpl; lia))).
      specialize (Hl (keys (body_of co)) orig (push (VRef l) st)
                     Hpre eq_refl (or_introl eq_refl)).
      by destruct (loop _ _ _ _ _). }
  destruct c as [[f|] b]; simpl; [eapply Hgoal, Hto; done|].
  apply (Hgoal (VRef l)). done.
Qed.



(** [a = { self: a, b: { up: a } }]: a direct and an indirect cycle. *)
Definition cyclic_heap : list cell :=
  [ Cell None (Obj [("self", VRef 0); ("b", VRef 1)]);
    Cell None (Obj [("up", VRef 0)]) ].


Example cyclic_sanitized :
  sanitize 3 cyclic_heap (VRef 0)
  = Ok (VRef 2)
      (State (cyclic_heap ++
              [ Cell None (Obj [("self", VStr "[Circular]"); ("b", VRef 3)]);
                Cell None (Obj [("up", VStr "[Circular]")]) ])
             []).
Proof. reflexivity. Qed.

(** [[y, y]] with [y = { k: 1 }]: the shared object is not circular, and
    nothing is copied. *)
Example shared_not_circular :
  let h := [ Cell None (Arr [VRef 1; VRef 1]); Cell None (Obj [("k", VNum 1)]) ] in
  sanitize 3 h (VRef 0) = Ok (VRef 0) (State h []).
Proof. reflexivity. Qed.

(** The general form: at any point of the recursion. *)
Lemma safeJsonObject_preserves (fuel : nat) (obj : val) (parentKey : string)
    (st : state) :
  match safeJsonObject fuel obj parentKey st with
  | Ok r st' =>
      (∃ fresh, heap st' = heap st ++ fresh) ∧
      (∀ l c, heap st !! l = Some c → heap st' !! l = Some c) ∧
      stack st' = stack st ∧
      (∀ l, r = VRef l → l < length (heap st) →
            r = after_toJSON (heap st) obj parentKey)
  | Throw st' =>
      (∃ fresh, heap st' = heap st ++ fresh) ∧
      (∀ l c, heap st !! l = Some c → heap st' !! l = Some c)
  | _ => True
  end.
Proof.
  pose proof (safeJsonObject_frame fuel obj parentKey st) as Hf.
  destruct (safeJsonObject fuel obj parentKey st) as [r st'|st'| |] eqn:Hrun;
    simpl in Hf; try done.
  - destruct Hf as [Hpre Hstk]. repeat split; try done.
    + intros l c Hl. by eapply prefix_lookup_Some.
    + intros l -> Hl. apply safeJsonObject_result in Hrun.
      destruct (after_toJSON (heap st) obj parentKey); try done.
      * by destruct Hrun as [[_ ?]|[_ ?]].
      * destruct (includes obj st); [done|].
        destruct Hrun as [?|(l' & [= ->] & ?)]; [done|lia].
  - split; [done|]. intros l c Hl. by eapply prefix_lookup_Some.
Qed.

(** How a call ended, and the heap it left. *)
Definition final_heap {A} (r : outcome A) : option (list cell) :=
  match r with
  | Ok _ st' | Throw st' => Some (heap st')
  | _ => None
  end.

(** C10. A call never writes to a cell of the heap it was given.  With
    fuel beyond the number of cells of a closed heap, [safeJsonObject(x)]
    ends with a heap that is the initial heap followed by the cells the
    call allocated, so that every array and object of the input is
    unchanged (also when the call throws); and at any point of the
    recursion a call leaves the cells it found as they were, gives the stack
    back, and returns either the (post-[toJSON]) argument itself or a cell
    it allocated: where a child was replaced, the container of the output
    is a fresh copy. *)
Theorem safeJsonObject_no_mutation (h : list cell) (x : val) (fuel : nat) :
  wf h → val_ok h x → length h < fuel →
  (∃ h', final_heap (sanitize fuel h x) = Some h' ∧
         (∃ fresh, h' = h ++ fresh) ∧
         ∀ l c, h !! l = Some c → h' !! l = Some c) ∧
  (∀ n obj parentKey st r st',
     safeJsonObject n obj parentKey st = Ok r st' →
     (∃ fresh, heap st' = heap st ++ fresh) ∧
     (∀ l c, heap st !! l = Some c → heap st' !! l = Some c) ∧
     stack st' = stack st ∧
     (∀ l, r = VRef l → l < length (heap st) →
           r = after_toJSON (heap st) obj parentKey)).
Proof.
  intros Hwf Hx Hfuel. split.
  - pose proof (safeJsonObject_returns h fuel Hwf x "" (State h []) Hx
                  ltac:(done)
                  ltac:(split; [apply NoDup_nil_2|by intros ? ?%elem_of_nil])
                  ltac:(simpl; lia)) as Hret.
    pose proof (safeJsonObject_preserves fuel x "" (State h [])) as Hp.
    unfold sanitize.
    destruct (safeJsonObject fuel x "" (State h [])) as [r st'|st'| |];
      try done; exists (heap st'); (split; [done|]);
      [destruct Hp as (Hfresh & Hsame & _)|destruct Hp as (Hfresh & Hsame)];
      auto.
  - intros n obj parentKey st r st' Hrun.
    pose proof (safeJsonObject_preserves n obj parentKey st) as Hp.
    by rewrite Hrun in Hp.
Qed.

Lemma safeJsonObject_no_mutation_witness :
  wf cyclic_heap ∧ val_ok cyclic_heap (VRef 0) ∧ length cyclic_heap < 3 ∧
  ∃ h', final_heap (sanitize 3 cyclic_heap (VRef 0)) = Some h' ∧
        (∃ fresh, h' = cyclic_heap ++ fresh) ∧
        ∀ l c, cyclic_heap !! l = Some c → h' !! l = Some c.
Proof.
  assert (Hwf : wf cyclic_heap).
  { intros [|[|l]] c [= <-]; (split; [|done]);
      repeat constructor; simpl; lia. }
  assert (Hx : val_ok cyclic_heap (VRef 0)) by (simpl; lia).
  assert (Hfuel : length cyclic_heap < 3) by (simpl; lia).
  split; [exact Hwf|]. split; [exact Hx|]. split; [exact Hfuel|].
  exact (proj1 (safeJsonObject_no_mutation cyclic_heap (VRef 0) 3 Hwf Hx Hfuel)).
Defined.

(** *** Sanitizing twice *)


(** A heap without [toJSON] methods and without [NaN]. *)
Definition plain (h : list cell) : Prop :=
  ∀ l c, h !! l = Some c →
    toJSON c = None ∧ Forall (λ v, v ≠ VNaN) (body_vals (body_of c)).

(** [tree n h D v]: below [v] the heap [h] is a tree of depth less than [n]
    whose cells are in [D], no cell occurring below itself, without
    [toJSON], bigint or [NaN]: a value that [safeJsonObject] leaves
    alone. *)
Fixpoint tree (n : nat) (h : list cell) (D : loc → Prop) (v : val) : Prop :=
  match n with
  | O => False
  | S n =>
      match v with
      | VBigInt _ => False
      | VRef l =>
          D l ∧ ∃ b, h !! l = Some (Cell None b) ∧
            Forall (λ k, get b k ≠ VNaN ∧
                         tree n h (λ l', D l' ∧ l' ≠ l) (get b k)) (keys b)
      | _ => True
      end
  end.

Lemma strict_eq_true a b : strict_eq a b = true → a = b.
Proof.
  destruct a, b; simpl; try done; by intros ?%bool_decide_eq_true.
Qed.

Lemma strict_eq_refl a : a ≠ VNaN → strict_eq a a = true.
Proof. destruct a; simpl; try done; intros; by apply bool_decide_eq_true. Qed.

Lemma object_get_set ps s v s' :
  object_get (object_set ps s v) s' = if decide (s = s') then v else object_get ps s'.
Proof.
  induction ps as [|[s0 v0] ps IH]; simpl.
  - repeat case_decide; congruence.
  - destruct (decide (s0 = s)) as [->|Hne]; simpl.
    + repeat case_decide; congruence.
    + rewrite IH. repeat case_decide; congruence.
Qed.

Lemma object_set_keys ps s v : s ∈ ps.*1 → (object_set ps s v).*1 = ps.*1.
Proof.
  induction ps as [|[s0 v0] ps IH]; simpl; [by intros ?%elem_of_nil|].
  intros Hin. destruct (decide (s0 = s)) as [->|Hne]; simpl; [done|].
  f_equal. apply IH. apply elem_of_cons in Hin as [?|?]; [congruence|done].
Qed.

Lemma get_set b k v k' :
  k ∈ keys b → get (set b k v) k' = if decide (k = k') then v else get b k'.
Proof.
  destruct b as [xs|ps], k as [i|s]; simpl.
  - intros (j & [= <-] & Hj%elem_of_seq)%list_elem_of_fmap.
    unfold array_set. rewrite decide_True by lia.
    destruct k' as [i'|s']; [|by case_decide].
    case_decide as Hk; simplify_eq; simpl.
    + by rewrite list_lookup_insert_eq by lia.
    + rewrite list_lookup_insert_ne; [done|congruence].
  - by intros (j & [=] & _)%list_elem_of_fmap.
  - by intros (j & [=] & _)%list_elem_of_fmap.
  - intros _. destruct k' as [i'|s']; [by case_decide|]. simpl.
    rewrite object_get_set. repeat case_decide; congruence.
Qed.

Lemma keys_set b k v : k ∈ keys b → keys (set b k v) = keys b.
Proof.
  destruct b as [xs|ps], k as [i|s]; simpl; try done.
  - intros (j & [= <-] & Hj%elem_of_seq)%list_elem_of_fmap.
    unfold array_set. rewrite decide_True by lia. by rewrite length_insert.
  - intros (j & [= <-] & Hj)%list_elem_of_fmap. by rewrite object_set_keys.
Qed.

Lemma tree_mono n : ∀ h h' (D D' : loc → Prop) v,
  (∀ l, D l → D' l ∧ h' !! l = h !! l) →
  tree n h D v → tree n h' D' v.
Proof.
  induction n as [|n IH]; intros h h' D D' v HD; simpl; [done|].
  destruct v; try done. intros (Hl & b & Hb & Hks).
  destruct (HD _ Hl) as [Hl' Heq]. split; [done|].
  exists b. split; [congruence|].
  eapply Forall_impl; [exact Hks|]. simpl. intros k [Hnan Hk]. split; [done|].
  eapply IH; [|exact Hk]. simpl. intros l' [Hd Hne].
  destruct (HD _ Hd). auto.
Qed.

Lemma pop_push x st : pop (push x st) = st.
Proof. destruct st as [h s]. unfold pop, push. simpl. by rewrite removelast_last. Qed.

(** A loop none of whose recursive calls changes anything returns [orig]. *)
Lemma loop_fixed rec orig c st ks :
  heap st !! orig = Some c →
  (∀ k, k ∈ ks → get (body_of c) k ≠ VNaN ∧
        rec (get (body_of c) k) (key_string k) st = Ok (get (body_of c) k) st) →
  loop rec orig ks orig st = Ok orig st.
Proof.
  intros Hc. induction ks as [|k ks IH]; intros Hks; simpl; [done|].
  rewrite Hc. destruct (Hks k ltac:(apply list_elem_of_here)) as [Hnan ->].
  rewrite strict_eq_refl by done. apply IH.
  intros k' Hk'. apply Hks. by apply list_elem_of_further.
Qed.

(** A tree that avoids the stack is returned as it is. *)
Lemma tree_fixed n : ∀ D v parentKey st,
  tree n (heap st) D v → (∀ l, VRef l ∈ stack st → ¬ D l) →
  safeJsonObject n v parentKey st = Ok v st.
Proof.
  induction n as [|n IH]; intros D v parentKey st Ht Hstk; [done|].
  destruct v as [| |b|z| |s|z|a|l]; try done.
  simpl in Ht. destruct Ht as (Hl & b & Hb & Hks).
  cbn [safeJsonObject after_toJSON]. rewrite Hb.
  unfold includes. rewrite bool_decide_eq_false_2 by (intros ?%Hstk; done).
  cbn [heap push]. rewrite Hb. cbn [body_of].
  rewrite (loop_fixed _ l (Cell None b) (push (VRef l) st) (keys b));
    [by rewrite pop_push|done|].
  intros k Hk. rewrite Forall_forall in Hks. destruct (Hks k Hk) as [Hnan Ht].
  split; [done|]. apply (IH (λ l', D l' ∧ l' ≠ l)); [done|].
  simpl. intros l' [Hin|Heq%list_elem_of_singleton]%elem_of_app [Hd Hne].
  - by eapply Hstk.
  - simplify_eq.
Qed.

Lemma object_get_elem ps s : s ∈ ps.*1 → object_get ps s ∈ ps.*2.
Proof.
  induction ps as [|[s' v] ps IH]; simpl; [by intros ?%elem_of_nil|].
  intros Hin. case_decide as Hs; [apply list_elem_of_here|].
  apply list_elem_of_further, IH.
  apply elem_of_cons in Hin as [?|?]; [congruence|done].
Qed.

Lemma get_elem b k : k ∈ keys b → get b k ∈ body_vals b.
Proof.
  destruct b as [xs|ps], k as [i|s]; simpl.
  - intros (j & [= <-] & Hj%elem_of_seq)%list_elem_of_fmap.
    destruct (lookup_lt_is_Some_2 xs i ltac:(lia)) as [v Hv]. rewrite Hv. simpl.
    by eapply list_elem_of_lookup_2.
  - by intros (j & [=] & _)%list_elem_of_fmap.
  - by intros (j & [=] & _)%list_elem_of_fmap.
  - intros (j & [= <-] & Hj)%list_elem_of_fmap. by apply object_get_elem.
Qed.

Section FirstPass.
Variable h0 : list cell.
Hypothesis Hwf : wf h0.
Hypothesis Hplain : plain h0.

(** Where the cells of a result can lie: in [h0] off the stack [S], or
    among the cells allocated between the heap sizes [lo] and [hi]. *)
Definition out_dom (S : list val) (lo hi : nat) (l : loc) : Prop :=
  (l < length h0 ∧ VRef l ∉ S) ∨ (lo ≤ l ∧ l < hi).

(** What a call in a plain heap produces: no exception, and a tree. *)
Definition clean_out (n : nat) (st : state) (v : val) (r : outcome val) : Prop :=
  match r with
  | Ok j st1 =>
      (v ≠ VNaN → j ≠ VNaN) ∧
      tree n (heap st1)
        (out_dom (stack st) (length (heap st)) (length (heap st1))) j
  | Throw _ => False
  | _ => True
  end.

(** The loop invariant on a property value of the current [obj]. *)
Definition T (n : nat) (S' : list val) (Lb : nat) (st : state) (obj : loc)
    (v : val) : Prop :=
  v ≠ VNaN ∧
  tree n (heap st) (λ l, out_dom S' Lb (length (heap st)) l ∧ l ≠ obj) v.

Lemma T_mono n S' Lb st st' obj obj' v :
  length h0 ≤ Lb → Lb ≤ length (heap st) → length (heap st) ≤ length (heap st') →
  (∀ l, l < length (heap st) → l ≠ obj → heap st' !! l = heap st !! l) →
  obj' = obj ∨ length (heap st) ≤ obj' →
  T n S' Lb st obj v → T n S' Lb st' obj' v.
Proof.
  intros H0 Hb Hlen Heq Hobj [Hnan Ht]. split; [done|].
  eapply tree_mono; [|exact Ht]. simpl.
  intros l [[[Hl Hs]|[Hl1 Hl2]] Hne]; (split; [split|]).
  - left. done.
  - destruct Hobj as [->|?]; [done|lia].
  - apply Heq; [lia|done].
  - right. lia.
  - destruct Hobj as [->|?]; [done|lia].
  - apply Heq; [lia|done].
Qed.

Lemma out_T n S' Lb st st1 orig obj j :
  length h0 ≤ Lb → Lb ≤ length (heap st) → length (heap st) ≤ length (heap st1) →
  orig < length h0 → VRef orig ∈ S' →
  obj = orig ∨ (Lb ≤ obj ∧ obj < length (heap st)) ∨ length (heap st1) ≤ obj →
  j ≠ VNaN →
  tree n (heap st1) (out_dom S' (length (heap st)) (length (heap st1))) j →
  T n S' Lb st1 obj j.
Proof.
  intros H0 Hb Hlen Horig Hin Hobj Hnan Ht. split; [done|].
  eapply tree_mono; [|exact Ht]. simpl.
  intros l [[Hl Hs]|[Hl1 Hl2]]; (split; [split|done]).
  - by left.
  - destruct Hobj as [->|[?|?]]; [|lia..]. by intros ->.
  - right. lia.
  - destruct Hobj as [->|[?|?]]; lia.
Qed.

Lemma loop_tree rec n orig c S' Lb :
  h0 !! orig = Some c → VRef orig ∈ S' → length h0 ≤ Lb →
  (∀ v k st, frame st (rec v k st)) →
  (∀ v k st, val_ok h0 v → h0 `prefix_of` heap st → stack st = S' →
             clean_out n st v (rec v k st)) →
  ∀ ks done obj st co,
    (∀ k, k ∈ ks → k ∈ keys (body_of c)) →
    h0 `prefix_of` heap st → stack st = S' → Lb ≤ length (heap st) →
    heap st !! obj = Some co → keys (body_of co) = keys (body_of c) →
    toJSON co = None → obj = orig ∨ Lb ≤ obj →
    (∀ k, get (body_of co) k = get (body_of c) k ∨
          T n S' Lb st obj (get (body_of co) k)) →
    (∀ k, k ∈ done → T n S' Lb st obj (get (body_of co) k)) →
    match loop rec orig ks obj st with
    | Ok obj' st' =>
        ∃ co', heap st' !! obj' = Some co' ∧ toJSON co' = None ∧
               keys (body_of co') = keys (body_of c) ∧
               (obj' = orig ∨ Lb ≤ obj') ∧
               ∀ k, k ∈ done ++ ks → T n S' Lb st' obj' (get (body_of co') k)
    | Throw _ => False
    | _ => True
    end.
Proof.
  intros Hc Hin H0 Hfr Hrec.
  assert (Horig : orig < length h0) by by eapply lookup_lt_Some.
  destruct (Hwf _ _ Hc) as [Hvals _]. destruct (Hplain _ _ Hc) as [HcJ Hnan].
  induction ks as [|k ks IH];
    intros done obj st co Hks Hpre Hstk HLb Hco Hkeys HcoJ Hobj HA HB; simpl.
  { exists co. rewrite app_nil_r. auto. }
  rewrite (prefix_lookup_Some _ _ _ _ Hc Hpre).
  assert (Hk : k ∈ keys (body_of c)) by apply Hks, list_elem_of_here.
  assert (Hks' : ∀ k', k' ∈ ks → k' ∈ keys (body_of c)).
  { intros k' Hk'. by apply Hks, list_elem_of_further. }
  assert (Hvnan : get (body_of c) k ≠ VNaN).
  { rewrite Forall_forall in Hnan. by apply Hnan, get_elem. }
  pose proof (Hrec _ (key_string k) st (get_ok h0 _ k Hvals) Hpre Hstk) as Hr.
  pose proof (Hfr (get (body_of c) k) (key_string k) st) as Hf.
  destruct (rec (get (body_of c) k) (key_string k) st) as [j st1|st1| |];
    simpl in Hr, Hf; try done.
  destruct Hr as [Hjnan Htj]. destruct Hf as [Hpre1 Hstk1].
  specialize (Hjnan Hvnan). rewrite Hstk in Htj.
  assert (Hlen1 : length (heap st) ≤ length (heap st1)) by by apply prefix_length.
  assert (Hobjlt : obj < length (heap st)) by by eapply lookup_lt_Some.
  assert (Hb1 : h0 `prefix_of` heap st1) by by etrans.
  assert (Hco1 : heap st1 !! obj = Some co) by by eapply prefix_lookup_Some.
  assert (Heq1 : ∀ l, l < length (heap st) → heap st1 !! l = heap st !! l).
  { intros l Hl. symmetry. by apply prefix_lookup_lt. }
  replace (done ++ k :: ks) with ((done ++ [k]) ++ ks) by by rewrite <- app_assoc.
  destruct (strict_eq (get (body_of c) k) j) eqn:Heq.
  - apply strict_eq_true in Heq. subst j.
    assert (Hstep : ∀ v, T n S' Lb st obj v → T n S' Lb st1 obj v).
    { intros v. apply T_mono; auto. }
    assert (HTj : T n S' Lb st1 obj (get (body_of c) k)).
    { apply (out_T n S' Lb st st1 orig obj _ H0 HLb Hlen1 Horig Hin); [|done..].
      destruct Hobj as [->|?]; [by left|right; left; lia]. }
    apply (IH (done ++ [k]) obj st1 co); try done.
    + congruence.
    + lia.
    + intros k'. destruct (HA k') as [?|?]; [by left|right; by apply Hstep].
    + intros k' [Hk'|Hk'%list_elem_of_singleton]%elem_of_app.
      * by apply Hstep, HB.
      * subst k'. destruct (HA k) as [->|?]; [exact HTj|by apply Hstep].
  - destruct (decide (obj = orig)) as [->|Hne].
    + rewrite (prefix_lookup_Some _ _ _ _ Hc Hb1).
      assert (co = c) as ->.
      { pose proof (prefix_lookup_Some _ _ _ _ Hc Hpre). congruence. }
      cbn [alloc].
      set (obj' := length (heap st1)).
      set (st2 := store obj' k j _).
      assert (Hh2 : heap st2 = alter (λ c0, Cell (toJSON c0) (set (body_of c0) k j))
                               obj' (heap st1 ++ [copy c])) by done.
      assert (Heq2 : ∀ l, l < length (heap st1) → heap st2 !! l = heap st1 !! l).
      { intros l Hl. rewrite Hh2, list_lookup_alter_ne by (unfold obj'; lia).
        by rewrite lookup_app_l. }
      assert (Hlen2 : length (heap st2) = S (length (heap st1))).
      { rewrite Hh2, length_alter, length_app. simpl. lia. }
      assert (HTj : T n S' Lb st2 obj' j).
      { apply (T_mono n S' Lb st1 st2 obj' obj'); auto; try lia.
        apply (out_T n S' Lb st st1 orig obj' _ H0 HLb Hlen1 Horig Hin); [|done..].
        right; right. done. }
      assert (Hold : ∀ v, T n S' Lb st orig v → T n S' Lb st2 obj' v).
      { intros v. apply T_mono; auto; try lia; try (right; unfold obj'; lia).
        intros l Hl _. rewrite Heq2 by lia. by apply Heq1. }
      apply (IH (done ++ [k]) obj' st2 (Cell None (set (body_of c) k j)));
        try done.
      * rewrite Hh2. apply prefix_alter_fresh; [by apply prefix_snoc|].
        unfold obj'. etrans; [|exact Hlen1]. lia.
      * simpl. congruence.
      * lia.
      * rewrite Hh2, list_lookup_alter_eq, lookup_app_r by done.
        unfold obj'. by rewrite Nat.sub_diag.
      * simpl. by apply keys_set.
      * right. unfold obj'. lia.
      * intros k'. simpl. rewrite get_set by done.
        case_decide; [by right|by left].
      * intros k' Hk'. simpl. rewrite get_set by done.
        case_decide as Hkk; [done|].
        apply elem_of_app in Hk' as [Hk'|Hk'%list_elem_of_singleton]; [|done].
        by apply Hold, HB.
    + destruct Hobj as [?|Hobj]; [done|].
      set (st2 := store obj k j st1).
      assert (Hh2 : heap st2 = alter (λ c0, Cell (toJSON c0) (set (body_of c0) k j))
                               obj (heap st1)) by done.
      assert (Heq2 : ∀ l, l < length (heap st1) → l ≠ obj →
                          heap st2 !! l = heap st1 !! l).
      { intros l Hl Hlo. by rewrite Hh2, list_lookup_alter_ne. }
      assert (Hlen2 : length (heap st2) = length (heap st1)).
      { by rewrite Hh2, length_alter. }
      assert (Hstep : ∀ v, T n S' Lb st1 obj v → T n S' Lb st2 obj v).
      { intros v. apply T_mono; auto; lia. }
      assert (HTj : T n S' Lb st2 obj j).
      { apply Hstep.
        apply (out_T n S' Lb st st1 orig obj _ H0 HLb Hlen1 Horig Hin); [|done..].
        right; left. lia. }
      assert (Hold : ∀ v, T n S' Lb st obj v → T n S' Lb st2 obj v).
      { intros v Hv. apply Hstep. revert Hv. apply T_mono; auto. }
      apply (IH (done ++ [k]) obj st2 (Cell None (set (body_of co) k j)));
        try done.
      * rewrite Hh2. apply prefix_alter_fresh; [done|lia].
      * simpl. congruence.
      * lia.
      * rewrite Hh2, list_lookup_alter_eq, Hco1. simpl. by rewrite HcoJ.
      * simpl. rewrite <- Hkeys. apply keys_set. by rewrite Hkeys.
      * by right.
      * intros k'. simpl. rewrite get_set by by rewrite Hkeys.
        case_decide; [by right|].
        destruct (HA k') as [?|?]; [by left|right; by apply Hold].
      * intros k' Hk'. simpl. rewrite get_set by by rewrite Hkeys.
        case_decide as Hkk; [done|].
        apply elem_of_app in Hk' as [Hk'|Hk'%list_elem_of_singleton]; [|done].
        by apply Hold, HB.
Qed.

Lemma safeJsonObject_clean n : ∀ v parentKey st,
  val_ok h0 v → h0 `prefix_of` heap st →
  clean_out n st v (safeJsonObject n v parentKey st).
Proof.
  induction n as [|n IH]; intros v parentKey st Hv Hpre; [done|].
  destruct v as [| |b|z| |s|z|a|l]; try done.
  simpl in Hv. destruct (lookup_lt_is_Some_2 h0 l Hv) as [c Hc].
  pose proof (prefix_lookup_Some _ _ _ _ Hc Hpre) as Hc'.
  destruct (Hplain _ _ Hc) as [HcJ _].
  cbn [safeJsonObject after_toJSON]. rewrite Hc'.
  destruct c as [f b]. simpl in HcJ. subst f.
  unfold includes. case_bool_decide as Hin; [done|].
  cbn [push heap]. rewrite Hc'. cbn [body_of].
  pose proof (loop_tree (safeJsonObject n) n l (Cell None b)
                (stack st ++ [VRef l]) (length (heap st)) Hc
                ltac:(apply elem_of_app; right; apply list_elem_of_here)
                ltac:(by apply prefix_length)
                (safeJsonObject_frame n)
                (λ v k st1 Hv1 Hp1 _, IH v k st1 Hv1 Hp1)
                (keys b) [] l (push (VRef l) st) (Cell None b)
                ltac:(done) Hpre eq_refl ltac:(done) Hc' eq_refl eq_refl
                ltac:(by left) ltac:(by left)
                ltac:(by intros ? ?%elem_of_nil)) as Hl.
  destruct (loop _ _ _ _ _) as [obj' st'|st'| |]; try done.
  destruct Hl as ([f b'] & Hco' & HJ & Hkeys & Hobj' & HT).
  simpl in HJ, Hkeys. subst f. split; [done|].
  cbn [tree pop heap]. split.
  - destruct Hobj' as [->|Hlo]; [by left|right].
    split; [done|]. by eapply lookup_lt_Some.
  - exists b'. split; [done|]. rewrite Hkeys. apply Forall_forall.
    intros k Hk. destruct (HT k Hk) as [Hnan Ht]. split; [done|].
    eapply tree_mono; [|exact Ht]. simpl.
    intros l0 [[[Hl0 Hs]|Hr] Hne]; (split; [split|done]); try done.
    + left. split; [done|]. intros ?. apply Hs, elem_of_app. by left.
    + by right.
Qed.

End FirstPass.





(** The same reference is not returned either when an array holds [NaN]:
    [NaN !== NaN] makes every call copy the array. *)
Example NaN_copied_again :
  let h := [Cell None (Arr [VNaN])] in
  sanitize 2 h (VRef 0) = Ok (VRef 1) (State (h ++ [Cell None (Arr [VNaN])]) []) ∧
  sanitize 2 (h ++ [Cell None (Arr [VNaN])]) (VRef 1)
    = Ok (VRef 2) (State (h ++ [Cell None (Arr [VNaN]); Cell None (Arr [VNaN])]) []).
Proof. done. Qed.

(** *** What the output looks like *)

(** X6. In a closed heap without [toJSON] methods and without [NaN], a call
    with the default arguments and fuel beyond the number of cells never
    throws, and what it returns is safe to serialize: below the result the
    final heap is a finite tree in which no object occurs below itself and
    no bigint is left. *)
Theorem safeJsonObject_output_tree (h : list cell) (x : val) (fuel : nat) :
  wf h → plain h → val_ok h x → length h < fuel →
  ∃ v st', sanitize fuel h x = Ok v st' ∧ tree fuel (heap st') (λ _, True) v.
Proof.
  intros Hwf Hplain Hx Hfuel. unfold sanitize.
  pose proof (safeJsonObject_returns h fuel Hwf x "" (State h []) Hx
                ltac:(done)
                ltac:(split; [apply NoDup_nil_2|by intros ? ?%elem_of_nil])
                ltac:(simpl; lia)) as Hret.
  pose proof (safeJsonObject_clean h Hwf Hplain fuel x "" (State h []) Hx
                ltac:(done)) as Hclean.
  destruct (safeJsonObject fuel x "" (State h [])) as [v st1|st1| |];
    try done.
  destruct Hclean as [_ Ht]. exists v, st1. split; [done|].
  eapply tree_mono; [|exact Ht]. done.
Qed.

Lemma safeJsonObject_output_tree_witness :
  wf cyclic_heap ∧ plain cyclic_heap ∧ val_ok cyclic_heap (VRef 0) ∧
  length cyclic_heap < 3 ∧
  ∃ v st', sanitize 3 cyclic_heap (VRef 0) = Ok v st' ∧
           tree 3 (heap st') (λ _, True) v.
Proof.
  assert (Hwf : wf cyclic_heap).
  { intros [|[|l]] c [= <-]; (split; [|done]);
      repeat constructor; simpl; lia. }
  assert (Hplain : plain cyclic_heap).
  { intros [|[|l]] c [= <-]; (split; [done|]); by repeat constructor. }
  assert (Hx : val_ok cyclic_heap (VRef 0)) by (simpl; lia).
  assert (Hfuel : length cyclic_heap < 3) by (simpl; lia).
  split; [exact Hwf|]. split; [exact Hplain|]. split; [exact Hx|].
  split; [exact Hfuel|].
  exact (safeJsonObject_output_tree cyclic_heap (VRef 0) 3 Hwf Hplain Hx Hfuel).
Defined.

(** X7. Copy on write: a value below which the heap is already such a tree
    (no cycle, no [toJSON], no bigint, no [NaN]) and none of whose objects is
    on the stack is returned as it is, the same reference for an array or
    object, and the call allocates nothing and leaves the stack alone. *)
Theorem safeJsonObject_returns_input (n : nat) (D : loc → Prop) (v : val)
    (parentKey : string) (st : state) :
  tree n (heap st) D v → (∀ l, VRef l ∈ stack st → ¬ D l) →
  safeJsonObject n v parentKey st = Ok v st.
Proof. apply tree_fixed. Qed.

(** [[y, y]] with [y = { k: 1 }]. *)
Definition shared_heap : list cell :=
  [ Cell None (Arr [VRef 1; VRef 1]); Cell None (Obj [("k", VNum 1)]) ].

Lemma safeJsonObject_returns_input_witness :
  tree 3 shared_heap (λ _, True) (VRef 0) ∧
  (∀ l, VRef l ∈ [] → ¬ (λ _ : loc, True) l) ∧
  safeJsonObject 3 (VRef 0) "" (State shared_heap []) = Ok (VRef 0) (State shared_heap []).
Proof.
  assert (Ht : tree 3 (heap (State shared_heap [])) (λ _, True) (VRef 0)).
  { simpl. split; [done|]. eexists. split; [done|].
    repeat constructor; try done; simpl; eexists; (split; [done|]);
      by repeat constructor. }
  assert (Hs : ∀ l, VRef l ∈ stack (State shared_heap []) → ¬ (λ _ : loc, True) l).
  { by intros l ?%elem_of_nil. }
  split; [exact Ht|]. split; [exact Hs|].
  exact (safeJsonObject_returns_input 3 _ (VRef 0) "" (State shared_heap []) Ht Hs).
Defined.

(** Two bodies of the same kind (both arrays or both objects) with the same
    keys in the same order (for arrays: the same length). *)
Definition same_shape (b b' : body) : Prop :=
  keys b' = keys b ∧
  match b, b' with
  | Arr _, Arr _ | Obj _, Obj _ => True
  | _, _ => False
  end.

Lemma same_shape_refl b : same_shape b b.
Proof. by destruct b. Qed.

Lemma set_shape b b' k v : same_shape b b' → k ∈ keys b → same_shape b (set b' k v).
Proof.
  intros [Hk Hkind] Hin. split.
  - rewrite <-Hk. apply keys_set. by rewrite Hk.
  - destruct b, b', k; simpl in *; try done;
      by apply list_elem_of_fmap in Hin as (? & [=] & _).
Qed.

Lemma loop_shape rec orig c :
  (∀ v k st, frame st (rec v k st)) →
  ∀ ks obj st co obj' st',
    (∀ k, k ∈ ks → k ∈ keys (body_of c)) →
    heap st !! orig = Some c → heap st !! obj = Some co →
    same_shape (body_of c) (body_of co) →
    loop rec orig ks obj st = Ok obj' st' →
    ∃ co', heap st' !! obj' = Some co' ∧ same_shape (body_of c) (body_of co').
Proof.
  intros Hfr. induction ks as [|k ks IH];
    intros obj st co obj' st' Hks Hc Hco Hsh; simpl.
  { intros [= <- <-]. eauto. }
  rewrite Hc.
  assert (Hk : k ∈ keys (body_of c)) by apply Hks, list_elem_of_here.
  assert (Hks' : ∀ k', k' ∈ ks → k' ∈ keys (body_of c)).
  { intros k' Hk'. by apply Hks, list_elem_of_further. }
  pose proof (Hfr (get (body_of c) k) (key_string k) st) as Hf.
  destruct (rec (get (body_of c) k) (key_string k) st) as [j st1|st1| |];
    simpl in Hf; try done.
  destruct Hf as [Hpre _].
  pose proof (prefix_lookup_Some _ _ _ _ Hc Hpre) as Hc1.
  pose proof (prefix_lookup_Some _ _ _ _ Hco Hpre) as Hco1.
  assert (Horig : orig < length (heap st1)) by by eapply lookup_lt_Some.
  destruct (strict_eq _ j); [by apply (IH obj st1 co)|].
  destruct (decide (obj = orig)) as [->|Hne].
  - rewrite Hc1. cbn [alloc]. unfold store. cbn [heap stack].
    apply (IH _ _ (Cell None (set (body_of c) k j))); [done| | |].
    + cbn [heap]. rewrite list_lookup_alter_ne by lia. by rewrite lookup_app_l.
    + cbn [heap]. rewrite list_lookup_alter_eq, lookup_app_r by done.
      by rewrite Nat.sub_diag.
    + apply set_shape; [apply same_shape_refl|done].
  - apply (IH _ _ (Cell (toJSON co) (set (body_of co) k j))); [done| | |].
    + unfold store. cbn [heap]. by rewrite list_lookup_alter_ne.
    + unfold store. cbn [heap]. by rewrite list_lookup_alter_eq, Hco1.
    + by apply set_shape.
Qed.

(** X8. The shape is kept: when a call returns an array or object, it has
    the kind of the object found after the [toJSON] step (an array for an
    array, an object for an object) and the very keys of that object, in the
    same order; for an array, the same length. *)
Theorem safeJsonObject_shape (n : nat) (obj : val) (parentKey : string)
    (st st' : state) (orig l' : loc) (c : cell) :
  after_toJSON (heap st) obj parentKey = VRef orig →
  heap st !! orig = Some c →
  safeJsonObject n obj parentKey st = Ok (VRef l') st' →
  ∃ c', heap st' !! l' = Some c' ∧ same_shape (body_of c) (body_of c').
Proof.
  intros Ho Hc. destruct n as [|n]; [done|].
  assert (Hgoal :
    (if includes obj st then Ok (VStr "[Circular]") st
     else match heap (push obj st) !! orig with
          | None => Dangling
          | Some c =>
              match loop (safeJsonObject n) orig (keys (body_of c))
                      orig (push obj st) with
              | Ok obj st => Ok (VRef obj) (pop st)
              | Throw st => Throw st
              | OutOfFuel => OutOfFuel
              | Dangling => Dangling
              end
          end) = Ok (VRef l') st' →
    ∃ c', heap st' !! l' = Some c' ∧ same_shape (body_of c) (body_of c')).
  { destruct (includes obj st); [done|]. cbn [push heap]. rewrite Hc.
    destruct (loop _ _ _ _ _) as [o st1|st1| |] eqn:Hloop; try done.
    intros [= <- <-]. cbn [pop heap].
    eapply (loop_shape _ orig c (safeJsonObject_frame n)); [| | | |exact Hloop];
      [done|done|done|apply same_shape_refl]. }
  destruct obj as [| |b|z| |s|z|a|l]; try done.
  cbn [safeJsonObject]. rewrite Ho. exact Hgoal.
Qed.

Lemma safeJsonObject_shape_witness :
  after_toJSON cyclic_heap (VRef 0) "" = VRef 0 ∧
  cyclic_heap !! 0 = Some (Cell None (Obj [("self", VRef 0); ("b", VRef 1)])) ∧
  ∃ c', (cyclic_heap ++
          [ Cell None (Obj [("self", VStr "[Circular]"); ("b", VRef 3)]);
            Cell None (Obj [("up", VStr "[Circular]")]) ]) !! 2 = Some c' ∧
        same_shape (Obj [("self", VRef 0); ("b", VRef 1)]) (body_of c').
Proof.
  split; [reflexivity|]. split; [reflexivity|].
  exact (safeJsonObject_shape 3 (VRef 0) "" (State cyclic_heap []) _ 0 2 _
           eq_refl eq_refl cyclic_sanitized).
Defined.









(** [new Date(NaN)]: its [toJSON] answers [null]. *)
Example invalid_date_throws :
  sanitize 2 [Cell (Some (λ _, VNull)) (Obj [])] (VRef 0)
  = Throw (State [Cell (Some (λ _, VNull)) (Obj [])] [VRef 0]).
Proof. reflexivity. Qed.

End Utils.

(** ** Serialize: the error serializer *)

Module Serialize.

(** Error objects live in a heap and are compared by reference. *)
Abbreviation loc := nat.

(** The values held by the fields of an error: [JErr l] is an instance of
    [Error]; [JObj id message str] is any other object, with its identity,
    its [message] property when it has one, and its string coercion. *)
Inductive jv :=
  | JUndefined
  | JNull
  | JStr (s : string)
  | JNum (n : Z)
  | JObj (id : nat) (message : option string) (str : string)
  | JErr (l : loc).

Global Instance jv_eq_dec : EqDecision jv.
Proof. solve_decision. Defined.

(** An instance of [Error].  [message] and [stack] are strings or
    [undefined]; [isBoom] and [ctor_is_boom] are [error.isBoom] and
    [error.constructor === internals.boomCtor]. *)
Record error := Error {
  name : string;
  message : option string;
  stack : option string;
  cause : jv;
  data : jv;
  code : jv;
  isBoom : bool;
  ctor_is_boom : bool;
  ctor_name : string;
  output_statusCode : jv
}.

(** The record built by [errSerializer]; [s_data] and [s_stack] are
    [None] when the key is absent. *)
Record serialized_error := Serialized {
  s_type : string;
  s_message : string;
  s_code : jv;
  s_data : option jv;
  s_stack : option (option string)
}.

Inductive result (A : Type) :=
  | Ok (a : A)
  | Throw
  | OutOfFuel
  | Dangling.
Arguments Ok {A} _.
Arguments Throw {A}.
Arguments OutOfFuel {A}.
Arguments Dangling {A}.

(** The line feed of ['\n']. *)
Definition nl : string := String (Ascii.ascii_of_nat 10) "".

(** [Error.prototype.name]. *)
Definition Error_prototype_name : string := "Error".

(** [base ? `Boom(${base})` : 'Boom']; [None] is [undefined], and the empty
    string is falsy too. *)
Definition boom_label (base : option string) : string :=
  match base with
  | Some b => if decide (b = "") then "Boom" else "Boom(" +:+ b +:+ ")"
  | None => "Boom"
  end.

(** [error.cause instanceof Error && error.cause.name !== Error.prototype.name],
    giving [error.cause.name]. *)
Definition named_cause (h : list error) (c : jv) : option string :=
  match c with
  | JErr l =>
      match h !! l with
      | Some ce => if decide (name ce ≠ Error_prototype_name) then Some (name ce) else None
      | None => None
      end
  | _ => None
  end.

(** [internals.errorName]. *)
Definition errorName (h : list error) (error : error) : string :=
  if isBoom error then
    let base :=
      if ctor_is_boom error then
        match named_cause h (cause error) with
        | Some n => Some n
        | None =>
            if decide (name error ≠ ctor_name error) then Some (name error)
            else None
        end
      else Some (name error) in
    boom_label base
  else name error.

(** [x instanceof Error]. *)
Definition instanceof_Error (x : jv) : bool :=
  match x with JErr _ => true | _ => false end.

(** [internals.errorCause]. *)
Definition errorCause (error : error) : jv :=
  let cause := cause error in
  if decide (cause = JUndefined) then
    if isBoom error && instanceof_Error (data error) then data error else cause
  else cause.

(** [error.message ?? error], coerced to a string by the concatenation:
    [None] when [error] is [null] (reading [null.message] throws); an
    [Error] without message gives [Error.prototype.toString()], that is
    its name. *)
Definition message_or_self (h : list error) (x : jv) : result string :=
  match x with
  | JUndefined => Ok "undefined"
  | JNull => Throw
  | JStr s => Ok s
  | JNum n => Ok (pretty n)
  | JObj _ (Some m) _ => Ok m
  | JObj _ None str => Ok str
  | JErr l =>
      match h !! l with
      | Some e => Ok (default (name e) (message e))
      | None => Dangling
      end
  end.

(** [serialized.message += s] and [serialized.stack += s]. *)
Definition add_message (s : string) (r : serialized_error) : serialized_error :=
  Serialized (s_type r) (s_message r +:+ s) (s_code r) (s_data r) (s_stack r).

Definition add_stack (s : string) (r : serialized_error) : serialized_error :=
  Serialized (s_type r) (s_message r) (s_code r) (s_data r)
    (match s_stack r with
     | Some (Some st) => Some (Some (st +:+ s))
     | Some None => Some (Some ("undefined" +:+ s))
     | None => Some (Some ("undefined" +:+ s))
     end).

(** [seen.has(x)]: only instances of [Error] are ever added. *)
Definition seen_has (seen : gset loc) (x : jv) : bool :=
  match x with JErr l => bool_decide (l ∈ seen) | _ => false end.

(** [internals.addCause]; each call takes one unit of fuel. *)
Fixpoint addCause (fuel : nat) (h : list error) (serialized : serialized_error)
    (error : jv) (withStack : bool) (seen : gset loc) : result serialized_error :=
  match fuel with
  | O => OutOfFuel
  | S fuel =>
      if decide (error = JUndefined) then Ok serialized
      else if seen_has seen error then
        let serialized :=
          if withStack then add_stack (nl +:+ "causes have become circular...") serialized
          else serialized in
        Ok (add_message ": ..." serialized)
      else
        match message_or_self h error with
        | Ok m =>
            let serialized := add_message (": " +:+ m) serialized in
            match error with
            | JErr l =>
                match h !! l with
                | Some e =>
                    let seen := {[l]} ∪ seen in
                    let serialized :=
                      if withStack then
                        add_stack (nl +:+ "caused by: " +:+ default "<unknown>" (stack e))
                          serialized
                      else serialized in
                    addCause fuel h serialized (errorCause e) withStack seen
                | None => Dangling
                end
            | _ => Ok serialized
            end
        | Throw => Throw
        | OutOfFuel => OutOfFuel
        | Dangling => Dangling
        end
  end.

Section ErrSerializer.
(** [Utils.safeJsonObject] on the values of [code], [data] and [stack]
    (strings and [undefined] are returned as they are). *)
Variable safeJsonObject : jv → jv.

(** What [errSerializer] returns: its argument when it is not an error,
    the record otherwise. *)
Inductive serializer_result :=
  | Unchanged (x : jv)
  | Record_ (r : serialized_error).

(** [internals.errSerializer(error, withStack)]. *)
Definition errSerializer (fuel : nat) (h : list error) (x : jv) (withStack : bool)
    : result serializer_result :=
  match x with
  | JErr l =>
      match h !! l with
      | None => Dangling
      | Some error =>
          let message := default "undefined" (message error) in
          let cause := errorCause error in
          let type := errorName h error in
          let data :=
            if isBoom error && bool_decide (data error = cause) then JUndefined
            else data error in
          let code :=
            if isBoom error && bool_decide (code error = JUndefined)
            then output_statusCode error else code error in
          let res :=
            Serialized type message (safeJsonObject code)
              (match data with
               | JNull | JUndefined => None
               | _ => Some (safeJsonObject data)
               end)
              (if withStack then Some (stack error) else None) in
          let withStack := withStack && bool_decide (is_Some (stack error)) in
          match addCause fuel h res cause withStack {[l]} with
          | Ok r => Ok (Record_ r)
          | Throw => Throw
          | OutOfFuel => OutOfFuel
          | Dangling => Dangling
          end
      end
  | _ => Ok (Unchanged x)
  end.
End ErrSerializer.

(** *** Cause chains *)

(** [path h c ls c_end]: starting from the cause [c], the errors [ls] follow
    one another by [errorCause], and the cause of the last one is [c_end]. *)
Fixpoint path (h : list error) (c : jv) (ls : list loc) (c_end : jv) : Prop :=
  match ls with
  | [] => c = c_end
  | l :: ls => c = JErr l ∧ ∃ e, h !! l = Some e ∧ path h (errorCause e) ls c_end
  end.




Lemma string_app_assoc (a b c : string) : (a +:+ b) +:+ c = a +:+ (b +:+ c).
Proof.
  induction a as [|x a IH]; [done|].
  change (String x ((a +:+ b) +:+ c) = String x (a +:+ (b +:+ c))).
  by rewrite IH.
Qed.







(** The circular chain of the test suite: [err.cause.cause = err]. *)
Definition circular_errors : list error :=
  [ Error "TypeError" (Some "fail") (Some "TypeError: fail") (JErr 1)
      JUndefined JUndefined false false "TypeError" JUndefined;
    Error "Error" (Some "real error") (Some "Error: real error") (JErr 0)
      JUndefined JUndefined false false "Error" JUndefined ].


Example circular_cause_test :
  errSerializer id 2 circular_errors (JErr 0) true
  = Ok (Record_ (Serialized "TypeError" "fail: real error: ..." JUndefined None
         (Some (Some ("TypeError: fail" +:+ nl +:+ "caused by: Error: real error"
                      +:+ nl +:+ "causes have become circular..."))))).
Proof. reflexivity. Qed.

(** A cause that is not an error ends the walk with its own coercion, and
    a [null] cause makes the serializer throw. *)
Example non_error_cause_test :
  errSerializer id 2
    [ Error "TypeError" (Some "fail") (Some "TypeError: fail") (JStr "nothing")
        JUndefined JUndefined false false "TypeError" JUndefined ] (JErr 0) true
  = Ok (Record_ (Serialized "TypeError" "fail: nothing" JUndefined None
         (Some (Some "TypeError: fail")))).
Proof. reflexivity. Qed.

Example null_cause_throws :
  errSerializer id 2
    [ Error "TypeError" (Some "fail") (Some "TypeError: fail") JNull
        JUndefined JUndefined false false "TypeError" JUndefined ] (JErr 0) true
  = Throw.
Proof. reflexivity. Qed.

(** *** The type label *)


(** [Boom.notFound('oops', new TypeError('fail'))]. *)
Definition boom_with_error_data : list error :=
  [ Error "Error" (Some "oops") (Some "Error: oops") JUndefined (JErr 1)
      JUndefined true true "Error" (JNum 404);
    Error "TypeError" (Some "fail") (Some "TypeError: fail") JUndefined
      JUndefined JUndefined false false "TypeError" JUndefined ].




Example boomified_test :
  errorName [] (Error "TypeError" (Some "fail") None JUndefined JNull JUndefined
                  true false "TypeError" (JNum 500)) = "Boom(TypeError)".
Proof. reflexivity. Qed.

Example custom_name_test :
  errorName [] (Error "FourOhFour" (Some "oops") None JUndefined JNull JUndefined
                  true true "Error" (JNum 404)) = "Boom(FourOhFour)".
Proof. reflexivity. Qed.

Example boom_cause_test :
  let h := [ Error "TypeError" (Some "real error") None JUndefined JUndefined
               JUndefined false false "TypeError" JUndefined ] in
  errorName h (Error "Error" (Some "oops") None (JErr 0) JNull JUndefined
                 true true "Error" (JNum 500)) = "Boom(TypeError)".
Proof. reflexivity. Qed.

(** *** Arbitrary cause graphs *)








(** *** What the causes can change *)

Lemma string_app_nil_r (s : string) : s +:+ "" = s.
Proof.
  induction s as [|x s IH]; [done|].
  change (String x (s +:+ "") = String x s). by rewrite IH.
Qed.

(** [r'] is [r] with text appended to the message and, when [ws], to the
    stack; every other field is the same. *)
Definition extends (ws : bool) (r r' : serialized_error) : Prop :=
  s_type r' = s_type r ∧ s_code r' = s_code r ∧ s_data r' = s_data r ∧
  (∃ suffix, s_message r' = s_message r +:+ suffix) ∧
  (if ws then
     ∀ st, s_stack r = Some (Some st) →
           ∃ suffix, s_stack r' = Some (Some (st +:+ suffix))
   else s_stack r' = s_stack r).

Lemma extends_refl ws r : extends ws r r.
Proof.
  repeat split; [exists ""; by rewrite string_app_nil_r|].
  destruct ws; [|done]. intros st ->. exists "". by rewrite string_app_nil_r.
Qed.

Lemma extends_trans ws r1 r2 r3 : extends ws r1 r2 → extends ws r2 r3 → extends ws r1 r3.
Proof.
  intros (Ht & Hc & Hd & [m Hm] & Hs) (Ht' & Hc' & Hd' & [m' Hm'] & Hs').
  repeat split; try congruence.
  - exists (m +:+ m'). by rewrite Hm', Hm, string_app_assoc.
  - destruct ws; [|congruence]. intros st Hst.
    destruct (Hs st Hst) as [x Hx]. destruct (Hs' _ Hx) as [y Hy].
    exists (x +:+ y). by rewrite Hy, string_app_assoc.
Qed.

Lemma extends_message ws s r : extends ws r (add_message s r).
Proof.
  repeat split; [by exists s|]. destruct ws; [|done].
  intros st Hst. exists "". cbn [add_message s_stack].
  by rewrite Hst, string_app_nil_r.
Qed.

Lemma extends_stack s r : extends true r (add_stack s r).
Proof.
  repeat split; [exists ""; by rewrite string_app_nil_r|].
  intros st Hst. exists s. unfold add_stack. by rewrite Hst.
Qed.

Lemma addCause_extends h ws : ∀ fuel r c seen r',
  addCause fuel h r c ws seen = Ok r' → extends ws r r'.
Proof.
  induction fuel as [|fuel IH]; intros r c seen r'; [done|].
  cbn [addCause]. case_decide as Hu; [intros [= <-]; apply extends_refl|].
  destruct (seen_has seen c).
  { intros [= <-]. destruct ws; [|apply extends_message].
    eapply extends_trans; [apply extends_stack|apply extends_message]. }
  destruct (message_or_self h c) as [m| | |]; try done.
  assert (Hm : extends ws r (add_message (": " +:+ m) r)) by apply extends_message.
  destruct c as [| |s|z|i mo str|l]; try (intros [= <-]; exact Hm).
  destruct (h !! l) as [e|]; [|done].
  intros Hrec%IH. eapply extends_trans; [|exact Hrec].
  destruct ws; [|done]. eapply extends_trans; [exact Hm|apply extends_stack].
Qed.

(** X11. The causes only reach the message and the stack.  Whatever the
    cause graph, the record of an error has the label of [errorName], the
    sanitized code (for a Boom error without code, the status code of its
    output), and the sanitized data unless it is [null], [undefined] or, for
    a Boom error, the cause itself; its message begins with the message of
    the error; its stack is absent when no stack was asked for, left
    [undefined] when the error has no stack, and otherwise begins with the
    stack of the error. *)
Theorem errSerializer_head (safeJsonObject : jv → jv) (h : list error)
    (l0 : loc) (e0 : error) (withStack : bool) (fuel : nat) (r : serialized_error) :
  h !! l0 = Some e0 →
  errSerializer safeJsonObject fuel h (JErr l0) withStack = Ok (Record_ r) →
  s_type r = errorName h e0 ∧
  s_code r = safeJsonObject
               (if isBoom e0 && bool_decide (code e0 = JUndefined)
                then output_statusCode e0 else code e0) ∧
  s_data r = (if isBoom e0 && bool_decide (data e0 = errorCause e0) then None
              else match data e0 with
                   | JNull | JUndefined => None
                   | d => Some (safeJsonObject d)
                   end) ∧
  (∃ suffix, s_message r = default "undefined" (message e0) +:+ suffix) ∧
  match withStack, stack e0 with
  | false, _ => s_stack r = None
  | true, None => s_stack r = Some None
  | true, Some st => ∃ suffix, s_stack r = Some (Some (st +:+ suffix))
  end.
Proof.
  intros He0. unfold errSerializer. rewrite He0.
  destruct (addCause fuel h _ _ _ _) as [r'| | |] eqn:Hwalk; try done.
  intros [= <-]. apply addCause_extends in Hwalk.
  destruct Hwalk as (Ht & Hc & Hd & Hm & Hs). cbn [s_type s_code s_data s_message s_stack] in *.
  split; [done|]. split; [done|]. split.
  { rewrite Hd.
    destruct (isBoom e0 && bool_decide (data e0 = errorCause e0)); [done|].
    by destruct (data e0). }
  split; [done|].
  destruct withStack; [|done]. destruct (stack e0) as [st|].
  - rewrite bool_decide_eq_true_2 in Hs by eauto. by apply Hs.
  - rewrite bool_decide_eq_false_2 in Hs by (by intros [? ?]). done.
Qed.

Lemma errSerializer_head_witness :
  ∃ suffix,
    "fail: real error: ..." = default "undefined" (Some "fail") +:+ suffix.
Proof.
  exact (proj1 (proj2 (proj2 (proj2
           (errSerializer_head id circular_errors 0 _ true 2 _ eq_refl
              circular_cause_test))))).
Defined.

(** X12. A [data] payload that is an error takes the place of a missing
    cause for Boom errors only.  For a Boom error without cause whose [data]
    is another error, the record has no [data] and its message goes on with
    ": " and the message of that error; for an error that is not a Boom
    error and has no cause, the message is the error's own and an error held
    in [data] stays in [data]. *)
Theorem errSerializer_data_as_cause (safeJsonObject : jv → jv) (h : list error)
    (l0 l1 : loc) (e0 e1 : error) (withStack : bool) :
  h !! l0 = Some e0 → cause e0 = JUndefined → data e0 = JErr l1 →
  (isBoom e0 = true → h !! l1 = Some e1 → l1 ≠ l0 →
   ∀ fuel r,
     errSerializer safeJsonObject fuel h (JErr l0) withStack = Ok (Record_ r) →
     s_data r = None ∧
     ∃ suffix, s_message r
               = default "undefined" (message e0) +:+ ": " +:+
                 default (name e1) (message e1) +:+ suffix) ∧
  (isBoom e0 = false →
   ∀ fuel, ∃ r,
     errSerializer safeJsonObject (S fuel) h (JErr l0) withStack = Ok (Record_ r) ∧
     s_data r = Some (safeJsonObject (JErr l1)) ∧
     s_message r = default "undefined" (message e0)).
Proof.
  intros He0 Hcause Hdata. split.
  - intros Hboom He1 Hne fuel r.
    assert (Hec : errorCause e0 = JErr l1).
    { unfold errorCause. by rewrite Hcause, Hboom, Hdata. }
    unfold errSerializer. rewrite He0, Hec, Hboom, Hdata.
    rewrite (bool_decide_eq_true_2 (JErr l1 = JErr l1)) by done. cbn [andb].
    destruct fuel as [|fuel]; [done|]. cbn [addCause].
    rewrite decide_False by done. cbn [seen_has].
    rewrite bool_decide_eq_false_2 by (by intros ?%elem_of_singleton).
    cbn [message_or_self]. rewrite He1.
    destruct (addCause fuel h _ _ _ _) as [r'| | |] eqn:Hwalk; try done.
    intros [= <-]. apply addCause_extends in Hwalk.
    destruct Hwalk as (_ & _ & Hd & [m Hm] & _). split.
    + rewrite Hd. by destruct (withStack && _).
    + exists m. rewrite Hm.
      destruct (withStack && _); cbn [add_stack add_message s_message];
        by rewrite !string_app_assoc.
  - intros Hboom fuel.
    assert (Hec : errorCause e0 = JUndefined).
    { unfold errorCause. by rewrite Hcause, Hboom. }
    unfold errSerializer. rewrite He0, Hec, Hboom, Hdata. cbn [andb addCause].
    rewrite decide_True by done. eauto.
Qed.

Lemma errSerializer_data_as_cause_witness :
  ∃ e0, boom_with_error_data !! 0 = Some e0 ∧ cause e0 = JUndefined ∧
        data e0 = JErr 1 ∧ isBoom e0 = true ∧
        ∀ fuel r,
          errSerializer id fuel boom_with_error_data (JErr 0) true = Ok (Record_ r) →
          s_data r = None ∧
          ∃ suffix, s_message r = "oops" +:+ ": " +:+ "fail" +:+ suffix.
Proof.
  eexists. split; [reflexivity|]. split; [reflexivity|]. split; [reflexivity|].
  split; [reflexivity|].
  exact (proj1 (errSerializer_data_as_cause id boom_with_error_data 0 1 _ _ true
                  eq_refl eq_refl eq_refl)
               eq_refl eq_refl ltac:(done)).
Defined.

Example data_as_cause_test :
  errSerializer id 2 boom_with_error_data (JErr 0) false
  = Ok (Record_ (Serialized "Boom" "oops: fail" (JNum 404) None None)).
Proof. reflexivity. Qed.

End Serialize.

(** ** Translators: the response translator and the fault boundary *)

Module Translators.
Local Open Scope Z_scope.

(** Free-form data (credentials, error data, route properties, the answer
    of the response gate) are values of [Utils]. *)
Abbreviation val := Utils.val.

(** JavaScript truthiness. *)
Definition truthy (v : val) : bool :=
  match v with
  | Utils.VUndefined | Utils.VNull | Utils.VNaN => false
  | Utils.VBool b => b
  | Utils.VNum n | Utils.VBigInt n => negb (bool_decide (n = 0))
  | Utils.VStr s => negb (bool_decide (s = ""))
  | Utils.VAtom _ | Utils.VRef _ => true
  end.

(** A thrown value: a primitive, or an object with what the fault boundary
    reads from it: [constructor.name] ([None] when the object has no
    constructor, as [Object.create(null)]), [message] and [stack]. *)
Record thrown_object := ThrownObject {
  constructor_name : option string;
  message : option string;
  stack : option string
}.

Inductive thrown :=
  | ThUndefined
  | ThNull
  | ThBool (b : bool)
  | ThNum (n : Z)
  | ThNaN
  | ThStr (s : string)
  | ThObject (o : thrown_object).

Definition thrown_truthy (t : thrown) : bool :=
  match t with
  | ThUndefined | ThNull | ThNaN => false
  | ThBool b => b
  | ThNum n => negb (bool_decide (n = 0))
  | ThStr s => negb (bool_decide (s = ""))
  | ThObject _ => true
  end.

(** The internal error of a response ([response._error]). *)
Record internal_error := InternalError {
  error_constructor_name : string;
  error_message : string;
  error_data : val
}.

#[local] Set Warnings "-register-all".

(** The values of the fields of a log record. *)
Inductive pv :=
  | PUndefined
  | PBool (b : bool)
  | PNum (n : Z)
  | PStr (s : string)
  | PVal (v : val)
  | PTags (tags : list string)
  | PErr (e : internal_error)
  | PObj (ps : list (string * pv)).

(** [obj[prop] = v] on a record under construction. *)
Fixpoint set_prop (ps : list (string * pv)) (prop : string) (v : pv) : list (string * pv) :=
  match ps with
  | [] => [(prop, v)]
  | (p, v') :: ps => if decide (p = prop) then (prop, v) :: ps else (p, v') :: set_prop ps prop v
  end.

Inductive logger := responseLogger | eventLogger.

(** A call [logger[method](payload, msg)]. *)
Record call := Call {
  call_logger : logger;
  call_method : string;
  call_payload : list (string * pv);
  call_msg : string
}.

(** Translators run in a monad with the calls made on the loggers so far
    and exceptions. *)
Definition M (A : Type) : Type := list call → (A + thrown) * list call.

Global Instance M_ret : MRet M := λ A a log, (inl a, log).
Global Instance M_bind : MBind M := λ A B f m log,
  match m log with
  | (inl a, log) => f a log
  | (inr t, log) => (inr t, log)
  end.
Definition throw {A} (t : thrown) : M A := λ log, (inr t, log).

(** The [TypeError] of a call of something that is not a function. *)
Definition not_a_function (what : string) : thrown :=
  ThObject (ThrownObject (Some "TypeError") (Some (what +:+ " is not a function"))
              (Some ("TypeError: " +:+ what +:+ " is not a function"))).

(** [logger[method](payload, msg)]: a pino logger has one method per
    level label. *)
Definition log_call (lg : logger) (method : string) (payload : list (string * pv))
    (msg : string) : M unit := λ log,
  if bool_decide (is_Some (Levels.pinoValues method))
  then (inl tt, log ++ [Call lg method payload msg])
  else (inr (not_a_function method), log).

(** What the translators read from their surroundings: [server.info.id],
    the threshold of the event logger, [Date.now()], and the stack trace
    given to a [new Error(message)]. *)
Record env := Env {
  server_info_id : string;
  eventLogger_levelVal : Subscriptions.threshold;
  Date_now : Z;
  new_Error_stack : string → string
}.

(** [logger.isLevelEnabled(label)]. *)
Definition isLevelEnabled (levelVal : Subscriptions.threshold) (label : string) : bool :=
  match Levels.pinoValues label with
  | Some v => Subscriptions.ge_threshold v levelVal
  | None => false
  end.

Record response := Response {
  statusCode : Z;
  _error : option internal_error
}.

(** [internals.logResponseError(logger, response, id)], for the event
    logger. *)
Definition logResponseError (e : env) (response : response) (id : string) : M unit :=
  match _error response with
  | Some error =>
      if negb (bool_decide (statusCode response = 500))
         && isLevelEnabled (eventLogger_levelVal e) "trace"
      then log_call eventLogger "trace"
             [ ("request", PStr id);
               ("tags", PTags ["request"; "response"; "error"]);
               ("err", PErr error) ]
             "request-internal"
      else mret tt
  | None => mret tt
  end.

(** What the response translator reads from the request. *)
Record request := Request {
  request_response : option response;
  info_id : string;
  info_remoteAddress : string;
  info_received : Z;
  info_responded : Z;
  info_completed : Z;
  request_method : string;
  url_pathname : string;
  url_search : string;
  auth_mode : option string;
  auth_isAuthenticated : bool;
  auth_isAuthorized : bool;
  auth_credentials : val;
  auth_strategy : option string;
  params_is_null : bool;
  route_settings_id : option string;
  route_vhost : option string;
  route_path : string;
  route_realm_plugin : option string;
  route_nipo_req : option (list (string * list string));
  route_nipo_res : option (list (string * list string))
}.

Definition opt_str (o : option string) : pv :=
  match o with Some s => PStr s | None => PUndefined end.

(** The status-code rule of the response line. *)
Definition status_level (statusCode : Z) : string :=
  if bool_decide (statusCode >= 400)
  then (if bool_decide (statusCode >= 500) then "error" else "warn")
  else "info".

(** [if (!logLevel) { logLevel = ... }]; [None] is [undefined]. *)
Definition response_level (logLevel : option string) (statusCode : Z) : string :=
  match logLevel with
  | Some l => if bool_decide (l = "") then status_level statusCode else l
  | None => status_level statusCode
  end.

(** What the gate decided. *)
Inductive gate_decision :=
  | Skip (response : response)
  | Go (logLevel : option string).

Section Handlers.
(** [Utils.safeJsonObject] as the translators see it (a value, or an
    exception), and [Hoek.reach(request, path)]. *)
Variable safeJsonObject : val → val + thrown.
Variable reach : request → list string → val.
Variable e : env.

Definition sanitized (v : val) : M val := λ log, (safeJsonObject v, log).

(** [internals.applyUserProps(request, obj, map)]. *)
Fixpoint applyUserProps_loop (request : request) (obj : list (string * pv))
    (map : list (string * list string)) : M (list (string * pv)) :=
  match map with
  | [] => mret obj
  | (prop, path) :: map =>
      let value := reach request path in
      match value with
      | Utils.VUndefined | Utils.VNull => applyUserProps_loop request obj map
      | _ =>
          v ← sanitized value;
          applyUserProps_loop request (set_prop obj prop (PVal v)) map
      end
  end.

Definition applyUserProps (request : request) (obj : list (string * pv))
    (map : option (list (string * list string))) : M (list (string * pv)) :=
  match map with
  | Some map => applyUserProps_loop request obj map
  | None => mret obj
  end.

(** The first statement of [onResponseHandler]: the gate. *)
Definition consult_gate (logResponse : option (request → M val)) (request : request)
    : M gate_decision :=
  match request_response request, logResponse with
  | Some response, Some logResponse =>
      result ← logResponse request;
      if negb (truthy result) then mret (Skip response)
      else mret (Go (match result with Utils.VStr s => Some s | _ => None end))
  | _, _ => mret (Go None)
  end.

(** The [req] and [route] objects. *)
Definition build_req (request : request) : M (list (string * pv)) :=
  auth ← match auth_mode request with
         | Some _ =>
             credentials ← sanitized (if truthy (auth_credentials request)
                                      then auth_credentials request
                                      else Utils.VUndefined);
             mret (PObj [ ("valid", PBool (auth_isAuthenticated request));
                          ("access", if auth_isAuthenticated request
                                     then PBool (auth_isAuthorized request)
                                     else PUndefined);
                          ("credentials", PVal credentials);
                          ("strategy", match auth_strategy request with
                                       | Some s => if bool_decide (s = "")
                                                   then PUndefined else PStr s
                                       | None => PUndefined
                                       end) ])
         | None => mret PUndefined
         end;
  applyUserProps request
    [ ("id", PStr (info_id request));
      ("method", PStr (request_method request));
      ("path", PStr (url_pathname request +:+ url_search request));
      ("clientIp", PStr (info_remoteAddress request));
      ("auth", auth) ]
    (route_nipo_req request).

Definition build_route (request : request) : list (string * pv) :=
  if params_is_null request then []
  else [ ("id", opt_str (route_settings_id request));
         ("vhost", opt_str (route_vhost request));
         ("path", PStr (route_path request));
         ("realm", opt_str (route_realm_plugin request)) ].

(** The [res] object, with the trace check made on the way. *)
Definition build_res (request : request) (response : response) : M (list (string * pv)) :=
  let responded :=
    if negb (bool_decide (info_responded request = 0)) then info_responded request
    else if negb (bool_decide (info_completed request = 0)) then info_completed request
    else Date_now e in
  let res := [ ("statusCode", PNum (statusCode response));
               ("delay", PNum (responded - info_received request)) ] in
  res ← match _error response with
        | Some error =>
            let res :=
              set_prop res "reason"
                (PStr (error_constructor_name error +:+ ": " +:+ error_message error)) in
            res ← (if truthy (error_data error)
                   then d ← sanitized (error_data error);
                        mret (set_prop res "data" (PVal d))
                   else mret res);
            logResponseError e response (info_id request);;
            mret res
        | None => mret res
        end;
  applyUserProps request res (route_nipo_res request).

(** [internals.onResponseHandler(logResponse, request)]. *)
Definition onResponseHandler (logResponse : option (request → M val))
    (request : request) : M unit :=
  decision ← consult_gate logResponse request;
  match decision with
  | Skip response => logResponseError e response (info_id request)
  | Go logLevel =>
      req ← build_req request;
      let route := build_route request in
      match request_response request with
      | Some response =>
          res ← build_res request response;
          let logLevel := response_level logLevel (statusCode response) in
          log_call responseLogger logLevel
            [ ("req", PObj req); ("route", PObj route); ("res", PObj res) ]
            "request-response"
      | None =>
          log_call responseLogger "debug"
            [ ("req", PObj req); ("route", PObj route) ] "request-aborted"
      end
  end.

(** What the catch block reads from the caught value.  Reading
    [err.constructor.name] throws when [err] has no constructor. *)
Definition caught_type (err : thrown) : option string :=
  match err with
  | ThBool _ => Some "Boolean"
  | ThNum _ | ThNaN => Some "Number"
  | ThStr _ => Some "String"
  | ThObject o => constructor_name o
  | ThUndefined | ThNull => None
  end.

Definition caught_message (err : thrown) : option string :=
  match err with ThObject o => message o | _ => None end.

Definition caught_stack (err : thrown) : option string :=
  match err with ThObject o => stack o | _ => None end.

(** [new Error(message)]. *)
Definition new_Error (msg : string) : thrown :=
  ThObject (ThrownObject (Some "Error") (Some msg) (Some (new_Error_stack e msg))).

(** The [TypeError] of reading a property of [undefined]. *)
Definition cannot_read_name : thrown :=
  ThObject (ThrownObject (Some "TypeError")
              (Some "Cannot read properties of undefined (reading 'name')")
              (Some "TypeError: Cannot read properties of undefined (reading 'name')")).

(** The function returned by [safeHandler(handler, ...boundArgs)];
    [boundFn] is the bound translator applied to its arguments, and the
    result [None] is the [undefined] returned after a catch. *)
Definition safeHandler {A} (handler : string) (boundFn : M A) : M (option A) := λ log,
  match boundFn log with
  | (inl a, log) => (inl (Some a), log)
  | (inr err, log) =>
      let err :=
        if thrown_truthy err then err
        else new_Error ("Unknown throw during: " +:+ handler) in
      match caught_type err with
      | None => (inr cannot_read_name, log)
      | Some type =>
          match log_call eventLogger "fatal"
                  [ ("server", PStr (server_info_id e));
                    ("type", PStr type);
                    ("message", opt_str (caught_message err));
                    ("stack", opt_str (caught_stack err)) ]
                  "nipo-error" log with
          | (inl _, log) => (inl None, log)
          | (inr t, log) => (inr t, log)
          end
      end
  end.

(** The calls added by the trace check. *)
Definition trace_calls (response : response) (id : string) : list call :=
  (logResponseError e response id []).2.

Lemma bind_inl {A B} (m : M A) (k : A → M B) log a log1 :
  m log = (inl a, log1) → (x ← m; k x) log = k a log1.
Proof. intros H. unfold mbind, M_bind. by rewrite H. Qed.

Lemma log_call_level lg method payload msg log :
  is_Some (Levels.pinoValues method) →
  log_call lg method payload msg log = (inl tt, log ++ [Call lg method payload msg]).
Proof. intros H. unfold log_call. by rewrite bool_decide_eq_true_2. Qed.

Lemma logResponseError_calls response id log :
  logResponseError e response id log = (inl tt, log ++ trace_calls response id).
Proof.
  unfold trace_calls, logResponseError.
  destruct (_error response) as [error|]; [|by rewrite app_nil_r].
  destruct (_ && _); [|by rewrite app_nil_r].
  by rewrite !log_call_level by by eexists.
Qed.

Lemma trace_calls_eventLogger response id :
  Forall (λ c, call_logger c = eventLogger) (trace_calls response id).
Proof.
  unfold trace_calls, logResponseError.
  destruct (_error response) as [error|]; [|by constructor].
  destruct (_ && _); [|by constructor].
  rewrite log_call_level by by eexists. by repeat constructor.
Qed.

Section NoThrow.
Hypothesis Hsafe : ∀ v, ∃ v', safeJsonObject v = inl v'.

Lemma sanitized_ok v log : ∃ v', sanitized v log = (inl v', log).
Proof. unfold sanitized. destruct (Hsafe v) as [v' ->]. eauto. Qed.

Lemma applyUserProps_ok request map : ∀ obj log,
  ∃ obj', applyUserProps request obj map log = (inl obj', log).
Proof.
  destruct map as [map|]; [|by eexists]. simpl.
  induction map as [|[prop path] map IH]; intros obj log; [by eexists|].
  cbn [applyUserProps_loop].
  destruct (sanitized_ok (reach request path) log) as [v' Hv].
  destruct (reach request path); try apply IH;
    erewrite bind_inl by exact Hv; apply IH.
Qed.

Lemma build_req_ok request log : ∃ req, build_req request log = (inl req, log).
Proof.
  unfold build_req. destruct (auth_mode request) as [mode|].
  - match goal with
    | |- context [sanitized ?v] => destruct (sanitized_ok v log) as [c Hc]
    end.
    erewrite bind_inl; [apply applyUserProps_ok|].
    by erewrite bind_inl by exact Hc.
  - erewrite bind_inl by done. apply applyUserProps_ok.
Qed.

Lemma build_res_ok request response log :
  ∃ res, build_res request response log
         = (inl res, log ++ trace_calls response (info_id request)).
Proof.
  unfold build_res. destruct (_error response) as [error|] eqn:Herr.
  - destruct (sanitized_ok (error_data error) log) as [d Hd].
    match goal with
    | |- context [applyUserProps request _ ?m] =>
        pose proof (λ obj, applyUserProps_ok request m obj
                             (log ++ trace_calls response (info_id request))) as Hu
    end.
    destruct (truthy (error_data error)).
    + edestruct Hu as [res Hres]. exists res.
      erewrite bind_inl; [exact Hres|].
      erewrite bind_inl; [|by erewrite bind_inl by exact Hd].
      by erewrite bind_inl by apply logResponseError_calls.
    + edestruct Hu as [res Hres]. exists res.
      erewrite bind_inl; [exact Hres|].
      erewrite bind_inl; [|done].
      by erewrite bind_inl by apply logResponseError_calls.
  - assert (Ht : trace_calls response (info_id request) = []).
    { unfold trace_calls, logResponseError. by rewrite Herr. }
    rewrite Ht, app_nil_r.
    erewrite bind_inl by done. apply applyUserProps_ok.
Qed.

End NoThrow.

End Handlers.

Lemma status_level_rule statusCode :
  (statusCode < 400 → status_level statusCode = "info") ∧
  (400 ≤ statusCode < 500 → status_level statusCode = "warn") ∧
  (500 ≤ statusCode → status_level statusCode = "error").
Proof.
  unfold status_level. repeat split; intros; repeat case_bool_decide; done || lia.
Qed.

(** The level asked for by the answer of the gate. *)
Definition gate_level (result : val) (statusCode : Z) : string :=
  match result with
  | Utils.VStr s => s
  | _ => status_level statusCode
  end.

(** C1. The level of the response line.  Without a response object a
    'request-aborted' record is written at level debug.  With a response
    object and a gate: a falsy answer suppresses the response line (the
    translator does the trace check of [logResponseError] and nothing
    else); a string answer is the level; any other truthy answer, like no
    gate at all, gives 'info' below 400, 'warn' from 400 to 499 and 'error'
    from 500 on.  (The sanitizer is assumed not to throw, and a string
    answer to be a level label; the response line comes after the record of
    the trace check, if any.) *)
Theorem onResponseHandler_level (safeJsonObject : val → val + thrown)
    (reach : request → list string → val) (e : env)
    (logResponse : option (request → M val)) (request : request) (log : list call) :
  (∀ v, ∃ v', safeJsonObject v = inl v') →
  (∀ statusCode,
     (statusCode < 400 → status_level statusCode = "info") ∧
     (400 ≤ statusCode < 500 → status_level statusCode = "warn") ∧
     (500 ≤ statusCode → status_level statusCode = "error")) ∧
  match request_response request with
  | None =>
      ∃ req route,
        onResponseHandler safeJsonObject reach e logResponse request log
        = (inl tt, log ++ [Call responseLogger "debug"
                             [("req", PObj req); ("route", PObj route)]
                             "request-aborted"])
  | Some response =>
      ∀ result log1,
        match logResponse with
        | Some gate => gate request log = (inl result, log1)
        | None => result = Utils.VBool true ∧ log1 = log
        end →
        (truthy result = false →
           onResponseHandler safeJsonObject reach e logResponse request log
           = (inl tt, log1 ++ trace_calls e response (info_id request)) ∧
           Forall (λ c, call_logger c = eventLogger)
             (trace_calls e response (info_id request))) ∧
        (truthy result = true →
           is_Some (Levels.pinoValues (gate_level result (statusCode response))) →
           ∃ payload,
             onResponseHandler safeJsonObject reach e logResponse request log
             = (inl tt, log1 ++ trace_calls e response (info_id request) ++
                        [Call responseLogger
                           (gate_level result (statusCode response))
                           payload "request-response"]))
  end.
Proof.
  intros Hsafe. split; [apply status_level_rule|].
  unfold onResponseHandler, consult_gate.
  destruct (request_response request) as [response|] eqn:Hresp.
  - intros result log1 Hgate.
    assert (Hgo : ∀ logLevel log1,
      is_Some (Levels.pinoValues (response_level logLevel (statusCode response))) →
      ∃ payload,
        (req ← build_req safeJsonObject reach request;
         res ← build_res safeJsonObject reach e request response;
         log_call responseLogger (response_level logLevel (statusCode response))
           [("req", PObj req); ("route", PObj (build_route request));
            ("res", PObj res)] "request-response") log1
        = (inl tt, log1 ++ trace_calls e response (info_id request) ++
                   [Call responseLogger
                      (response_level logLevel (statusCode response))
                      payload "request-response"])).
    { intros logLevel l1 Hlevel.
      destruct (build_req_ok safeJsonObject reach Hsafe request l1) as [req Hreq].
      destruct (build_res_ok safeJsonObject reach e Hsafe request response l1)
        as [res Hres].
      eexists. erewrite bind_inl by exact Hreq.
      erewrite bind_inl by exact Hres.
      rewrite log_call_level by done. by rewrite <- app_assoc. }
    destruct logResponse as [gate|].
    + destruct (truthy result) eqn:Ht.
      * split; [done|]. intros _ Hlevel.
        erewrite bind_inl;
          [|erewrite bind_inl by exact Hgate; rewrite Ht; reflexivity].
        assert (Hl : gate_level result (statusCode response)
                     = response_level
                         (match result with Utils.VStr s => Some s | _ => None end)
                         (statusCode response)).
        { destruct result; try done. simpl in Ht. simpl.
          by rewrite bool_decide_eq_false_2
            by (intros ->; by rewrite bool_decide_eq_true_2 in Ht). }
        rewrite Hl in Hlevel |- *. cbn beta iota. by apply Hgo.
      * split; [intros _|done].
        erewrite bind_inl;
          [|erewrite bind_inl by exact Hgate; rewrite Ht; reflexivity].
        split; [apply logResponseError_calls|apply trace_calls_eventLogger].
    + destruct Hgate as [-> ->]. split; [done|]. intros _ Hlevel.
      erewrite bind_inl by reflexivity. cbn beta iota. by apply (Hgo None).
  - destruct (build_req_ok safeJsonObject reach Hsafe request log) as [req Hreq].
    exists req, (build_route request).
    erewrite bind_inl; [|by destruct logResponse].
    cbn beta iota. erewrite bind_inl by exact Hreq.
    by rewrite log_call_level by by eexists.
Qed.

(** A request for ['/fatal'] answered 404, as in the test of the
    [logResponse] option. *)
Definition sample_request (response : option response) : request :=
  Request response "req-1" "127.0.0.1" 1000 1007 0 "get" "/fatal" ""
    None false false Utils.VNull None false None None "/{p*}" None None None.

Definition sample_env (levelVal : Subscriptions.threshold) : env :=
  Env "host:1" levelVal 2000 (λ msg, "Error: " +:+ msg).

Definition no_reach : request → list string → val := λ _ _, Utils.VUndefined.

Lemma onResponseHandler_level_witness :
  (∀ v : val, ∃ v', (inl v : val + thrown) = inl v') ∧
  ∃ payload,
    onResponseHandler inl no_reach (sample_env (Subscriptions.Finite 30))
      (Some (λ _, mret (Utils.VStr "fatal")))
      (sample_request (Some (Response 404 None))) []
    = (inl tt, [Call responseLogger "fatal" payload "request-response"]).
Proof.
  assert (Hsafe : ∀ v : val, ∃ v', (inl v : val + thrown) = inl v') by eauto.
  split; [exact Hsafe|].
  destruct (onResponseHandler_level inl no_reach (sample_env (Subscriptions.Finite 30))
              (Some (λ _, mret (Utils.VStr "fatal")))
              (sample_request (Some (Response 404 None))) [] Hsafe) as [_ H].
  destruct (H (Utils.VStr "fatal") [] eq_refl) as [_ Hgo].
  destruct (Hgo eq_refl ltac:(by eexists)) as [payload Hp].
  exists payload. exact Hp.
Defined.

Example gate_false_suppresses :
  onResponseHandler inl no_reach (sample_env (Subscriptions.Finite 30))
    (Some (λ _, mret (Utils.VBool false)))
    (sample_request (Some (Response 200 None))) []
  = (inl tt, []).
Proof. reflexivity. Qed.

Example aborted_is_debug :
  onResponseHandler inl no_reach (sample_env (Subscriptions.Finite 30)) None
    (sample_request None) []
  = (inl tt,
     [Call responseLogger "debug"
        [ ("req", PObj [ ("id", PStr "req-1"); ("method", PStr "get");
                         ("path", PStr "/fatal"); ("clientIp", PStr "127.0.0.1");
                         ("auth", PUndefined) ]);
          ("route", PObj [ ("id", PUndefined); ("vhost", PUndefined);
                           ("path", PStr "/{p*}"); ("realm", PUndefined) ]) ]
        "request-aborted"]).
Proof. reflexivity. Qed.

(** The record of the trace check. *)
Definition trace_record (id : string) (error : internal_error) : call :=
  Call eventLogger "trace"
    [ ("request", PStr id);
      ("tags", PTags ["request"; "response"; "error"]);
      ("err", PErr error) ]
    "request-internal".

(** C5 (as stated) fails: a 503 response that carries an internal error is
    a 5xx response, and its trace record is written. *)
Lemma trace_record_for_503 :
  let error := InternalError "Boom" "Service Unavailable" Utils.VNull in
  logResponseError (sample_env (Subscriptions.Finite 10))
    (Response 503 (Some error)) "req-1" []
  = (inl tt, [trace_record "req-1" error]).
Proof. reflexivity. Qed.

(** C5 (as amended). For a response that carries an internal error and
    whose status code is not 500, when the trace level is enabled on the
    event logger (its threshold is at most 10), one 'request-internal'
    record is written at level trace on the event logger, with the request
    id, the tags request, response, error and the error; for a response
    with status 500, without internal error, or when trace is not enabled,
    nothing is written.  The check is the one [onResponseHandler] makes. *)
Theorem logResponseError_trace (e : env) (response : response) (id : string)
    (log : list call) :
  (∀ error, _error response = Some error → statusCode response ≠ 500 →
     isLevelEnabled (eventLogger_levelVal e) "trace" = true →
     logResponseError e response id log = (inl tt, log ++ [trace_record id error])) ∧
  (statusCode response = 500 → logResponseError e response id log = (inl tt, log)) ∧
  (_error response = None → logResponseError e response id log = (inl tt, log)) ∧
  (isLevelEnabled (eventLogger_levelVal e) "trace" = false →
     logResponseError e response id log = (inl tt, log)) ∧
  (isLevelEnabled (eventLogger_levelVal e) "trace" = true ↔
     ∃ v, eventLogger_levelVal e = Subscriptions.Finite v ∧ v ≤ 10).
Proof.
  unfold logResponseError. repeat split.
  - intros error -> Hs ->. rewrite bool_decide_eq_false_2 by done.
    simpl. by rewrite log_call_level by by eexists.
  - intros ->. destruct (_error response); [|done].
    by rewrite bool_decide_eq_true_2.
  - by intros ->.
  - intros ->. destruct (_error response); [|done]. by rewrite andb_false_r.
  - unfold isLevelEnabled. simpl.
    destruct (eventLogger_levelVal e) as [v|]; simpl; [|done].
    intros ?%bool_decide_eq_true. exists v. split; [done|lia].
  - intros (v & -> & Hv). unfold isLevelEnabled. simpl.
    apply bool_decide_eq_true. lia.
Qed.

(** The record written by the fault boundary. *)
Definition nipo_error (e : env) (type : string) (message stack : option string) : call :=
  Call eventLogger "fatal"
    [ ("server", PStr (server_info_id e)); ("type", PStr type);
      ("message", opt_str message); ("stack", opt_str stack) ]
    "nipo-error".


(** A gate that throws an object without constructor:
    [logResponse() { throw Object.create(null); }]. *)
Definition throwing_gate : request → M val :=
  λ _, throw (ThObject (ThrownObject None None None)).

(** C2 fails on the code at this input: building the fatal record reads
    [err.constructor.name], which throws inside the catch block; the
    [TypeError] leaves the wrapped handler and no record is written. *)
Theorem safeHandler_propagates :
  safeHandler (sample_env (Subscriptions.Finite 30)) "onResponseHandler"
    (onResponseHandler inl no_reach (sample_env (Subscriptions.Finite 30))
       (Some throwing_gate) (sample_request (Some (Response 200 None)))) []
  = (inr cannot_read_name, []).
Proof. reflexivity. Qed.

Example falsy_throw_test :
  safeHandler (sample_env (Subscriptions.Finite 30)) "onResponseHandler"
    (onResponseHandler inl no_reach (sample_env (Subscriptions.Finite 30))
       (Some (λ _, throw ThNull)) (sample_request (Some (Response 200 None)))) []
  = (inl None,
     [nipo_error (sample_env (Subscriptions.Finite 30)) "Error"
        (Some "Unknown throw during: onResponseHandler")
        (Some "Error: Unknown throw during: onResponseHandler")]).
Proof. reflexivity. Qed.

(** *** Route properties *)


(** [value !== undefined && value !== null]. *)
Definition present (v : val) : bool :=
  match v with Utils.VUndefined | Utils.VNull => false | _ => true end.




Lemma applyUserProps_loop_step safeJsonObject reach request obj prop path map log :
  applyUserProps_loop safeJsonObject reach request obj ((prop, path) :: map) log
  = if present (reach request path) then
      match safeJsonObject (reach request path) with
      | inl v => applyUserProps_loop safeJsonObject reach request
                   (set_prop obj prop (PVal v)) map log
      | inr t => (inr t, log)
      end
    else applyUserProps_loop safeJsonObject reach request obj map log.
Proof.
  cbn [applyUserProps_loop]. unfold mbind, M_bind, sanitized.
  destruct (reach request path); cbn [present]; try done;
    by destruct (safeJsonObject _).
Qed.



(** *** What a response event writes *)

Lemma bind_run {A B} (m : M A) (k : A → M B) log :
  (x ← m; k x) log
  = match m log with
    | (inl a, log1) => k a log1
    | (inr t, log1) => (inr t, log1)
    end.
Proof. reflexivity. Qed.

Lemma applyUserProps_log safeJsonObject reach request map : ∀ obj log,
  (applyUserProps safeJsonObject reach request obj map log).2 = log.
Proof.
  destruct map as [map|]; [|done]. cbn [applyUserProps].
  induction map as [|[p path] map IH]; intros obj log; [done|].
  rewrite applyUserProps_loop_step.
  destruct (present _); [|apply IH]. destruct (safeJsonObject _); [apply IH|done].
Qed.

Lemma build_req_log safeJsonObject reach request log :
  (build_req safeJsonObject reach request log).2 = log.
Proof.
  unfold build_req. rewrite bind_run.
  destruct (auth_mode request) as [mode|].
  - rewrite bind_run. unfold sanitized at 1.
    destruct (safeJsonObject _); [|done]. apply applyUserProps_log.
  - apply applyUserProps_log.
Qed.

Lemma trace_calls_cases e response id :
  trace_calls e response id = [] ∨
  ∃ error, _error response = Some error ∧
           trace_calls e response id = [trace_record id error].
Proof.
  unfold trace_calls, logResponseError.
  destruct (_error response) as [error|]; [|by left].
  destruct (_ && _); [|by left]. right. exists error. split; [done|].
  by rewrite log_call_level by by eexists.
Qed.

Lemma build_res_log safeJsonObject reach e request response log :
  (build_res safeJsonObject reach e request response log).2 = log ∨
  (build_res safeJsonObject reach e request response log).2
  = log ++ trace_calls e response (info_id request).
Proof.
  unfold build_res. rewrite bind_run.
  destruct (_error response) as [error|] eqn:Herr.
  - rewrite bind_run.
    assert (Hdata : ∀ res : list (string * pv),
      (∃ res', (if truthy (error_data error)
                then d ← sanitized safeJsonObject (error_data error);
                     mret (set_prop res "data" (PVal d))
                else mret res) log = (inl res', log)) ∨
      (∃ t, (if truthy (error_data error)
             then d ← sanitized safeJsonObject (error_data error);
                  mret (set_prop res "data" (PVal d))
             else mret res) log = (inr t, log))).
    { intros res. destruct (truthy (error_data error)); [|left; by eexists].
      rewrite bind_run. unfold sanitized.
      destruct (safeJsonObject _); [left|right]; by eexists. }
    match goal with
    | |- context [if truthy (error_data error) then _ else mret ?r] =>
        destruct (Hdata r) as [[res' ->]|[t ->]]
    end; [|by left].
    rewrite bind_run, logResponseError_calls. right.
    unfold mret, M_ret. by rewrite applyUserProps_log.
  - left. unfold mret, M_ret. by rewrite applyUserProps_log.
Qed.

(** The log after the gate: a gate is consulted only when there is a
    response object. *)
Definition after_gate (logResponse : option (request → M val)) (request : request)
    (log : list call) : list call :=
  match request_response request, logResponse with
  | Some _, Some gate => (gate request log).2
  | _, _ => log
  end.

(** A line of the response log: written by a method of the response logger,
    with one of its two messages. *)
Definition response_line (c : call) : Prop :=
  call_logger c = responseLogger ∧
  is_Some (Levels.pinoValues (call_method c)) ∧
  (call_msg c = "request-response" ∨ call_msg c = "request-aborted").

(** X14. What one response event writes, whatever the sanitizer, the gate
    and the route maps do: after the gate, at most one record of the trace
    check on the event logger, followed by at most one line on the response
    logger; and when the translator throws (an exception of the gate or of
    the sanitizer, or a gate answer that is not the name of a method), no
    line at all on the response logger. *)
Theorem onResponseHandler_writes (safeJsonObject : val → val + thrown)
    (reach : request → list string → val) (e : env)
    (logResponse : option (request → M val)) (request : request) (log : list call) :
  ∃ tr rs,
    (onResponseHandler safeJsonObject reach e logResponse request log).2
    = after_gate logResponse request log ++ tr ++ rs ∧
    (tr = [] ∨ ∃ response error,
       request_response request = Some response ∧ _error response = Some error ∧
       tr = [trace_record (info_id request) error]) ∧
    match (onResponseHandler safeJsonObject reach e logResponse request log).1 with
    | inl _ => rs = [] ∨ ∃ c, rs = [c] ∧ response_line c
    | inr _ => rs = []
    end.
Proof.
  assert (Hline : ∀ level payload msg l,
    msg = "request-response" ∨ msg = "request-aborted" →
    ∃ rs, (log_call responseLogger level payload msg l).2 = l ++ rs ∧
          match (log_call responseLogger level payload msg l).1 with
          | inl _ => rs = [] ∨ ∃ c, rs = [c] ∧ response_line c
          | inr _ => rs = []
          end).
  { intros level payload msg l Hmsg. unfold log_call.
    case_bool_decide as Hlevel.
    - eexists. split; [done|]. right. eexists. by split.
    - exists []. by rewrite app_nil_r. }
  assert (Hgo : ∀ response logLevel l,
    request_response request = Some response →
    ∃ tr rs,
      ((req ← build_req safeJsonObject reach request;
        res ← build_res safeJsonObject reach e request response;
        log_call responseLogger (response_level logLevel (statusCode response))
          [("req", PObj req); ("route", PObj (build_route request));
           ("res", PObj res)] "request-response") l).2 = l ++ tr ++ rs ∧
      (tr = [] ∨ ∃ response error,
         request_response request = Some response ∧ _error response = Some error ∧
         tr = [trace_record (info_id request) error]) ∧
      match ((req ← build_req safeJsonObject reach request;
              res ← build_res safeJsonObject reach e request response;
              log_call responseLogger (response_level logLevel (statusCode response))
                [("req", PObj req); ("route", PObj (build_route request));
                 ("res", PObj res)] "request-response") l).1 with
      | inl _ => rs = [] ∨ ∃ c, rs = [c] ∧ response_line c
      | inr _ => rs = []
      end).
  { intros response logLevel l Hresp. rewrite bind_run.
    pose proof (build_req_log safeJsonObject reach request l) as Hreq.
    destruct (build_req safeJsonObject reach request l) as [[req|t] l1];
      simpl in Hreq; subst l1.
    2:{ exists [], []. simpl. rewrite app_nil_r. auto. }
    rewrite bind_run.
    pose proof (build_res_log safeJsonObject reach e request response l) as Hres.
    assert (Htr : ∃ tr,
      (build_res safeJsonObject reach e request response l).2 = l ++ tr ∧
      (tr = [] ∨ ∃ response error,
         request_response request = Some response ∧ _error response = Some error ∧
         tr = [trace_record (info_id request) error])).
    { destruct Hres as [Hres|Hres].
      - exists []. rewrite app_nil_r. auto.
      - exists (trace_calls e response (info_id request)). split; [done|].
        destruct (trace_calls_cases e response (info_id request))
          as [->|(error & Herr & ->)]; [by left|right]. by exists response, error. }
    destruct Htr as (tr & Hl2 & Htr).
    destruct (build_res safeJsonObject reach e request response l) as [[res|t] l2];
      simpl in Hl2; subst l2.
    2:{ exists tr, []. simpl. rewrite app_nil_r. auto. }
    destruct (Hline (response_level logLevel (statusCode response))
                [("req", PObj req); ("route", PObj (build_route request));
                 ("res", PObj res)] "request-response" (l ++ tr)
                ltac:(by left)) as (rs & Hrs & Hres1).
    exists tr, rs. rewrite Hrs, <-app_assoc. auto. }
  unfold onResponseHandler, consult_gate, after_gate.
  destruct (request_response request) as [response|] eqn:Hresp.
  - destruct logResponse as [gate|].
    + rewrite !bind_run.
      destruct (gate request log) as [[result|t] log1]; cbn [snd].
      2:{ exists [], []. simpl. rewrite app_nil_r. auto. }
      destruct (truthy result); cbn [negb].
      * cbn beta iota. by apply Hgo.
      * unfold mret, M_ret. cbn beta iota. rewrite logResponseError_calls.
        exists (trace_calls e response (info_id request)), []. cbn [fst snd].
        rewrite app_nil_r. split; [done|]. split; [|by left].
        destruct (trace_calls_cases e response (info_id request))
          as [->|(error & Herr & ->)]; [by left|right]. by exists response, error.
    + rewrite bind_run. cbn beta iota. by apply Hgo.
  - assert (Habort : ∃ tr rs,
      ((req ← build_req safeJsonObject reach request;
        log_call responseLogger "debug"
          [("req", PObj req); ("route", PObj (build_route request))]
          "request-aborted") log).2 = log ++ tr ++ rs ∧
      (tr = [] ∨ ∃ response error,
         None = Some response ∧ _error response = Some error ∧
         tr = [trace_record (info_id request) error]) ∧
      match ((req ← build_req safeJsonObject reach request;
              log_call responseLogger "debug"
                [("req", PObj req); ("route", PObj (build_route request))]
                "request-aborted") log).1 with
      | inl _ => rs = [] ∨ ∃ c, rs = [c] ∧ response_line c
      | inr _ => rs = []
      end).
    { rewrite bind_run.
      pose proof (build_req_log safeJsonObject reach request log) as Hreq.
      destruct (build_req safeJsonObject reach request log) as [[req|t] l1];
        simpl in Hreq; subst l1.
      2:{ exists [], []. simpl. rewrite app_nil_r. auto. }
      destruct (Hline "debug" [("req", PObj req); ("route", PObj (build_route request))]
                  "request-aborted" log ltac:(by right)) as (rs & Hrs & Hres1).
      exists [], rs. rewrite Hrs. auto. }
    rewrite bind_run.
    destruct logResponse; exact Habort.
Qed.

(** *** What leaves the fault boundary *)



(** *** The translators of the server events *)

(** What the translators read from a 'request' or 'log' event:
    [event.request] (the request id), [event.tags], [event.data] and
    [event.error]. *)
Record event := Event {
  event_request : pv;
  event_tags : list string;
  event_data : val;
  event_error : option internal_error
}.

Definition err_field (error : option internal_error) : pv :=
  match error with Some error => PErr error | None => PUndefined end.

(** [this[method](payload, msg)] for the answer of [lookupLevel]; [None] is
    [undefined], and [this[undefined]] is not a function. *)
Definition call_this (this : logger) (method : option string)
    (payload : list (string * pv)) (msg : string) : M unit :=
  match method with
  | Some method => log_call this method payload msg
  | None => throw (not_a_function "this[method]")
  end.

Section EventHandlers.
Variable safeJsonObject : val → val + thrown.
Variable e : env.
(** [this], the logger the translators are bound to. *)
Variable this : logger.

(** [internals.onRequestErrorHandler]; [implementation] is the truth value
    of the tag of that name. *)
Definition onRequestErrorHandler (event : event) (implementation : bool) : M unit :=
  let level := if implementation then "fatal" else "error" in
  log_call this level
    [ ("request", event_request event);
      ("tags", PTags (event_tags event));
      ("err", err_field (event_error event)) ]
    "request-error".

(** [internals.onRequestInternalHandler]. *)
Definition onRequestInternalHandler (event : event) : M unit :=
  data ← sanitized safeJsonObject (event_data event);
  log_call this "debug"
    [ ("request", event_request event);
      ("tags", PTags (event_tags event));
      ("data", PVal data);
      ("err", err_field (event_error event)) ]
    "request-internal".

(** [internals.onRequestAppHandler]; [tagLevels] is
    [request.server.plugins.nipo.tagLevels]. *)
Definition onRequestAppHandler (tagLevels : gmap string Z) (event : event) : M unit :=
  let method := Levels.lookupLevel (event_tags event) "info" tagLevels in
  data ← sanitized safeJsonObject (event_data event);
  call_this this method
    [ ("request", event_request event);
      ("tags", PTags (event_tags event));
      ("data", PVal data);
      ("err", err_field (event_error event)) ]
    "request-app".

(** [internals.onLogInternalHandler]. *)
Definition onLogInternalHandler (server : string) (event : event) : M unit :=
  data ← sanitized safeJsonObject (event_data event);
  log_call this "debug"
    [ ("server", PStr server);
      ("tags", PTags (event_tags event));
      ("data", PVal data);
      ("err", err_field (event_error event)) ]
    "log-internal".

(** [internals.onLogAppHandler]. *)
Definition onLogAppHandler (server : string) (tagLevels : gmap string Z)
    (event : event) : M unit :=
  let method := Levels.lookupLevel (event_tags event) "info" tagLevels in
  data ← sanitized safeJsonObject (event_data event);
  call_this this method
    [ ("server", PStr server);
      ("tags", PTags (event_tags event));
      ("data", PVal data);
      ("err", err_field (event_error event)) ]
    "log-app".

(** [internals.onServerState]; [server_info] is the object [server.info]. *)
Definition onServerState (server_info : list (string * pv)) (state : string) : M unit :=
  log_call this "info" server_info ("server-" +:+ state).

End EventHandlers.

(** The events that reach the listeners attached by [register], the
    'response' event apart. *)
Inductive server_event :=
  | RequestError (event : event) (implementation : bool)
  | RequestInternal (event : event)
  | LogInternal (event : event)
  | RequestApp (event : event)
  | LogApp (event : event)
  | Start
  | Stop.

(** The listeners of [register]: each translator bound to the event logger
    and wrapped by [safeHandler]; [tagLevels] is the option of that name and
    [server_info] the object [server.info]. *)
Definition listener (safeJsonObject : val → val + thrown) (e : env)
    (tagLevels : list (string * Levels.Level)) (server_info : list (string * pv))
    (ev : server_event) : M (option unit) :=
  let nipo_tagLevels := Levels.prepareLevelMap tagLevels in
  match ev with
  | RequestError event implementation =>
      safeHandler e "onRequestErrorHandler"
        (onRequestErrorHandler eventLogger event implementation)
  | RequestInternal event =>
      safeHandler e "onRequestInternalHandler"
        (onRequestInternalHandler safeJsonObject eventLogger event)
  | LogInternal event =>
      safeHandler e "onLogInternalHandler"
        (onLogInternalHandler safeJsonObject eventLogger (server_info_id e) event)
  | RequestApp event =>
      safeHandler e "onRequestAppHandler"
        (onRequestAppHandler safeJsonObject eventLogger nipo_tagLevels event)
  | LogApp event =>
      safeHandler e "onLogAppHandler"
        (onLogAppHandler safeJsonObject eventLogger (server_info_id e)
           nipo_tagLevels event)
  | Start => safeHandler e "onServerState" (onServerState eventLogger server_info "started")
  | Stop => safeHandler e "onServerState" (onServerState eventLogger server_info "stopped")
  end.


Lemma call_this_level this tagLevels tags payload msg log :
  ∃ l, Levels.lookupLevel tags "info" (Levels.prepareLevelMap tagLevels)
       = Some (Levels.level_name l) ∧
       call_this this
         (Levels.lookupLevel tags "info" (Levels.prepareLevelMap tagLevels))
         payload msg log
       = (inl tt, log ++ [Call this (Levels.level_name l) payload msg]).
Proof.
  destruct (Levels.lookupLevel_label tags "info" (Levels.prepareLevelMap tagLevels)
              (Levels.prepareLevelMap_level_map tagLevels)) as [Hd|[l Hl]].
  - exists Levels.info. rewrite Hd. split; [done|].
    cbn [call_this]. by rewrite log_call_level by by eexists.
  - exists l. rewrite Hl. split; [done|].
    cbn [call_this]. rewrite log_call_level; [done|].
    rewrite Levels.pinoValues_name. by eexists.
Qed.

(** X16. The level of an application event.  With the map that [register]
    prepares from the option [tagLevels], an 'app' event of a request or of
    the server whose data the sanitizer accepts is written as exactly one
    record, by the method that [lookupLevel] names from the tags with the
    default 'info'; that name is always the label of a level, so the
    translator never calls a method that is missing; and the record has the
    tags, the sanitized data and the error of the event. *)
Theorem app_event_level (safeJsonObject : val → val + thrown) (this : logger)
    (server : string) (tagLevels : list (string * Levels.Level)) (event : event)
    (data : val) (log : list call) :
  safeJsonObject (event_data event) = inl data →
  ∃ l,
    Levels.lookupLevel (event_tags event) "info" (Levels.prepareLevelMap tagLevels)
    = Some (Levels.level_name l) ∧
    onRequestAppHandler safeJsonObject this (Levels.prepareLevelMap tagLevels) event log
    = (inl tt,
       log ++ [Call this (Levels.level_name l)
                 [ ("request", event_request event);
                   ("tags", PTags (event_tags event));
                   ("data", PVal data);
                   ("err", err_field (event_error event)) ]
                 "request-app"]) ∧
    onLogAppHandler safeJsonObject this server (Levels.prepareLevelMap tagLevels) event log
    = (inl tt,
       log ++ [Call this (Levels.level_name l)
                 [ ("server", PStr server);
                   ("tags", PTags (event_tags event));
                   ("data", PVal data);
                   ("err", err_field (event_error event)) ]
                 "log-app"]).
Proof.
  intros Hdata.
  unfold onRequestAppHandler, onLogAppHandler. rewrite !bind_run.
  unfold sanitized. rewrite Hdata.
  destruct (call_this_level this tagLevels (event_tags event)
              [ ("request", event_request event);
                ("tags", PTags (event_tags event));
                ("data", PVal data);
                ("err", err_field (event_error event)) ] "request-app" log)
    as (l & Hl & Hreq).
  destruct (call_this_level this tagLevels (event_tags event)
              [ ("server", PStr server);
                ("tags", PTags (event_tags event));
                ("data", PVal data);
                ("err", err_field (event_error event)) ] "log-app" log)
    as (l' & Hl' & Hlog).
  assert (l' = l) as -> by (rewrite Hl in Hl'; by destruct l, l').
  exists l. by rewrite Hreq, Hlog.
Qed.

Lemma app_event_level_witness :
  ∃ l,
    Levels.lookupLevel ["my"; "app"] "info" (Levels.prepareLevelMap [("my", Levels.warn)])
    = Some (Levels.level_name l) ∧
    onRequestAppHandler inl eventLogger (Levels.prepareLevelMap [("my", Levels.warn)])
      (Event (PStr "req-1") ["my"; "app"] (Utils.VStr "hello") None) []
    = (inl tt,
       [Call eventLogger (Levels.level_name l)
          [ ("request", PStr "req-1"); ("tags", PTags ["my"; "app"]);
            ("data", PVal (Utils.VStr "hello")); ("err", PUndefined) ]
          "request-app"]).
Proof.
  destruct (app_event_level inl eventLogger "host:1" [("my", Levels.warn)]
              (Event (PStr "req-1") ["my"; "app"] (Utils.VStr "hello") None)
              (Utils.VStr "hello") [] eq_refl) as (l & Hl & Hreq & _).
  exists l. split; [exact Hl|exact Hreq].
Defined.




(** A 'log' event tagged with a custom tag, as in the test of the
    [tagLevels] option; and a sanitizer exception at the boundary. *)
Example log_app_test :
  listener inl (sample_env (Subscriptions.Finite 30)) [("my", Levels.warn)] []
    (LogApp (Event PUndefined ["my"; "app"] (Utils.VStr "hello") None)) []
  = (inl (Some tt),
     [Call eventLogger "warn"
        [ ("server", PStr "host:1"); ("tags", PTags ["my"; "app"]);
          ("data", PVal (Utils.VStr "hello")); ("err", PUndefined) ]
        "log-app"]).
Proof. by vm_compute. Qed.

End Translators.
